(** * F1Tenth reactive nodes: safety_node, wall_follow and point_dist

    A shallow embedding of the three ROS nodes of the repository and the
    properties of their perception code.

    Numeric convention.  The C++ types [float] and [double] are read as the
    real numbers [R]: arithmetic is exact, there is no rounding, no NaN and no
    infinity, and [x / 0] has the value Rocq gives it ([x * / 0 = 0]).  [cos],
    [sin], [atan] and [PI] are those of the standard library.  Integer types
    ([size_t], [int]) are [nat] and [Z]; a conversion from a real that C++
    leaves undefined is the result [None].  ROS plumbing (node handles,
    topics, logging) is left out: a callback is a function from the object's
    state and a message to the new state and the list of messages it
    publishes. *)

From Stdlib Require Import Reals Lra Lia List ZArith Bool.
Import ListNotations.
Open Scope R_scope.

(** ** C++ library functions used by the nodes *)

Module Cpp.

(** [std::min(a, b)] is [(b < a) ? b : a]. *)
Definition std_min (a b : R) : R := if Rlt_dec b a then b else a.

Definition floor (r : R) : Z := Int_part r.

(** [ceil] of <cmath>. *)
Definition ceil (r : R) : Z := (- floor (- r))%Z.

(** [round] of <cmath>: nearest integer, halfway cases away from zero. *)
Definition round (r : R) : Z :=
  if Rle_dec 0 r then floor (r + / 2) else (- floor (- r + / 2))%Z.

(** Truncation toward zero, the rule of floating-to-integer conversion. *)
Definition trunc (r : R) : Z :=
  if Rle_dec 0 r then floor r else (- floor (- r))%Z.

Definition SIZE_MAX : Z := 2 ^ 64 - 1.
Definition INT_MIN : Z := - 2 ^ 31.
Definition INT_MAX : Z := 2 ^ 31 - 1.

(** [double] to [size_t]: the truncated value, undefined when it is not
    representable. *)
Definition to_size_t (r : R) : option nat :=
  let z := trunc r in
  if ((0 <=? z) && (z <=? SIZE_MAX))%Z then Some (Z.to_nat z) else None.

(** [(int)z] for an integral double [z]. *)
Definition to_int (z : Z) : option Z :=
  if ((INT_MIN <=? z) && (z <=? INT_MAX))%Z then Some z else None.

(** Overwrite position [i] of a list; the list is returned unchanged when
    [i] is out of range (callers check the range first). *)
Fixpoint list_set {A : Type} (i : nat) (x : A) (l : list A) : list A :=
  match l, i with
  | [], _ => []
  | _ :: t, O => x :: t
  | h :: t, S j => h :: list_set j x t
  end.

(** [std::vector<double>].  [elems] are the [size()] elements; [spare] is
    the storage that [reserve] allocated beyond them, one slot per
    position between [size()] and [capacity()], [None] while the slot has
    never been written. *)
Record std_vector : Type := mk_vector {
  elems : list R;
  spare : list (option R)
}.

Definition vec_empty : std_vector := {| elems := []; spare := [] |}.

Definition vec_size (v : std_vector) : nat := length (elems v).

Definition vec_capacity (v : std_vector) : nat :=
  (length (elems v) + length (spare v))%nat.

(** [v.reserve(n)]: grows the storage to [n] slots, never the size.  The
    [std::length_error] that [reserve] throws for [n] above [max_size()] is
    not modelled: every statement about a returned vector is about requests
    below that bound. *)
Definition reserve (n : nat) (v : std_vector) : std_vector :=
  if (n <=? vec_capacity v)%nat then v
  else {| elems := elems v;
          spare := spare v ++ repeat None (n - vec_capacity v) |}.

(** [v[i] = x].  Below [size()] it replaces the element.  Between
    [size()] and [capacity()] the write lands in the reserved storage and
    leaves [size()] as it was: the language leaves it undefined, and this
    is what an unchecked build does (a checked build aborts there).  At or
    beyond [capacity()] it is a write outside the allocation: [None]. *)
Definition vec_store (v : std_vector) (i : nat) (x : R) : option std_vector :=
  if (i <? length (elems v))%nat then
    Some {| elems := list_set i x (elems v); spare := spare v |}
  else if (i - length (elems v) <? length (spare v))%nat then
    Some {| elems := elems v;
            spare := list_set (i - length (elems v)) (Some x) (spare v) |}
  else None.

(** What storage slot [i] holds, whether or not it is below [size()]. *)
Definition vec_slot (v : std_vector) (i : nat) : option R :=
  if (i <? length (elems v))%nat then nth_error (elems v) i
  else match nth_error (spare v) (i - length (elems v)) with
       | Some s => s
       | None => None
       end.

(** [v[i]] as an rvalue for [i < v.size()]. *)
Definition vec_get (v : std_vector) (i : nat) : R := nth i (elems v) 0.

End Cpp.

(** ** Messages *)

(** [sensor_msgs/LaserScan], the fields the nodes read. *)
Record LaserScan : Type := mk_scan {
  angle_min : R;
  angle_max : R;
  angle_increment : R;
  ranges : list R
}.

(** [ackermann_msgs/AckermannDriveStamped], the fields of [drive] that the
    spec names; a freshly built message has them at zero. *)
Record AckermannDrive : Type := mk_drive {
  steering_angle : R;
  drive_speed : R
}.

(** ** safety_node.cpp *)

Module SafetyNode.
Import Cpp.

Record car_intrinsics : Type := mk_car {
  width : R;
  wheelbase : R;
  base_link : R
}.

Record lidar_intrinsics : Type := mk_lidar {
  num_scans : R;
  scan_inc : R;
  min_angle : R;
  max_angle : R
}.

(** The four branches of the loop body of [compute_car_perim]. *)

Definition first_quadrant (c : car_intrinsics) (angle : R) : R :=
  let right_side := (width c / 2) / cos angle in
  let top_right := (wheelbase c - base_link c) / cos (PI / 2 - angle) in
  std_min right_side top_right.

Definition second_quadrant (c : car_intrinsics) (angle : R) : R :=
  let top_left := (wheelbase c - base_link c) / cos (angle - PI / 2) in
  let left_side := (width c / 2) / cos (PI - angle) in
  std_min left_side top_left.

Definition third_quadrant (c : car_intrinsics) (angle : R) : R :=
  let left_side := (width c / 2) / cos (PI + angle) in
  let bottom_left := base_link c / cos (- angle - PI / 2) in
  std_min left_side bottom_left.

Definition fourth_quadrant (c : car_intrinsics) (angle : R) : R :=
  let bottom_right := base_link c / cos (PI / 2 - angle) in
  let right_side := (width c / 2) / cos (- angle) in
  std_min bottom_right right_side.

(** The value the loop body assigns to [car_perim[i]], as a function of
    the variable [angle]. *)
Definition perim_entry (c : car_intrinsics) (angle : R) : R :=
  if Rlt_dec 0 angle then
    if Rlt_dec angle (PI / 2) then first_quadrant c angle
    else second_quadrant c angle
  else
    if Rlt_dec angle (- PI / 2) then third_quadrant c angle
    else fourth_quadrant c angle.

(** The [for] loop of [compute_car_perim] from counter [i] on.  [angle] is
    set before the loop and the body never changes it.  [fuel] bounds the
    number of iterations. *)
Fixpoint perim_loop (c : car_intrinsics) (n angle : R)
    (fuel i : nat) (v : std_vector) : option std_vector :=
  if Rlt_dec (INR i) n then
    match fuel with
    | O => None
    | S fuel' =>
        match vec_store v i (perim_entry c angle) with
        | Some v' => perim_loop c n angle fuel' (S i) v'
        | None => None
        end
    end
  else Some v.

(** [compute_car_perim]: [reserve(num_scans)], then the loop from
    [size_t i = min_angle].  Every store needs [i] below the capacity, so
    [capacity + 1] iterations are enough fuel. *)
Definition compute_car_perim (c : car_intrinsics) (l : lidar_intrinsics)
    : option std_vector :=
  match to_size_t (num_scans l), to_size_t (min_angle l) with
  | Some cap, Some i0 =>
      perim_loop c (num_scans l) (min_angle l) (S cap) i0
        (reserve cap vec_empty)
  | _, _ => None
  end.

(** The [brake_msg] member. *)
Record brake_msg_t : Type := mk_brake_msg {
  brake : bool;
  speed_msg : AckermannDrive
}.

(** The data members of class [Safety]. *)
Record Safety : Type := mk_safety {
  car_perimeter : std_vector;
  lidar : lidar_intrinsics;
  car : car_intrinsics;
  ttc_threshold : R;
  speed : R;
  brake_msg : brake_msg_t
}.

(** What the node sends: [brake_pub] on /brake_bool and [speed_pub] on
    /brake. *)
Inductive publication : Type :=
| brake_pub (data : bool)
| speed_pub (drive : AckermannDrive).

(** The private parameters the constructor asks for; [None] when the
    parameter server does not have one. *)
Record params : Type := mk_params {
  p_width : option R;
  p_scan_distance_to_base_link : option R;
  p_wheelbase : option R;
  p_scan_beams : option R
}.

(** [n.getParam(name, var)] leaves [var] alone when [name] is not set. *)
Definition getParam (p : option R) (var : R) : R :=
  match p with Some x => x | None => var end.

(** The geometry the constructor reads off the sample scan.  For
    [angle_increment = 0] the quotient is Rocq's [0 / 0 = 0], where the code
    gets a NaN. *)
Definition lidar_of_sample (shared : LaserScan) : lidar_intrinsics :=
  let scan_inc' := angle_increment shared in
  let max_angle' := angle_max shared in
  let min_angle' := angle_max shared in
  {| num_scans := (max_angle' - min_angle') / scan_inc';
     scan_inc := scan_inc';
     min_angle := min_angle';
     max_angle := max_angle' |}.

(** The [brake_msg] that the constructor sets up: [brake.data = true] and
    [speed.drive.speed = 0.0]. *)
Definition initial_brake_msg : brake_msg_t :=
  {| brake := true;
     speed_msg := {| steering_angle := 0; drive_speed := 0 |} |}.

(** The constructor [Safety::Safety].  [lidar0] and [car0] are the
    indeterminate values the members hold before they are assigned;
    [shared] is the result of [waitForMessage].  The vector that
    [compute_car_perim] returns is dropped; the member [car_perimeter]
    keeps its default-constructed value. *)
Definition Safety_new (lidar0 : lidar_intrinsics) (car0 : car_intrinsics)
    (shared : option LaserScan) (ps : params) : option Safety :=
  let lidar1 :=
    match shared with
    | Some m => lidar_of_sample m
    | None => lidar0
    end in
  let car1 :=
    {| width := getParam (p_width ps) (width car0);
       wheelbase := getParam (p_wheelbase ps) (wheelbase car0);
       base_link :=
         getParam (p_scan_distance_to_base_link ps) (base_link car0) |} in
  let lidar2 :=
    {| num_scans := getParam (p_scan_beams ps) (num_scans lidar1);
       scan_inc := scan_inc lidar1;
       min_angle := min_angle lidar1;
       max_angle := max_angle lidar1 |} in
  match compute_car_perim car1 lidar2 with
  | Some _ =>
      Some {| car_perimeter := vec_empty;
              lidar := lidar2;
              car := car1;
              ttc_threshold := 1 / 100;
              speed := 0;
              brake_msg := initial_brake_msg |}
  | None => None
  end.

(** [odom_callback]: [odom_x] is [twist.twist.linear.x]. *)
Definition odom_callback (s : Safety) (odom_x : R) : Safety :=
  {| car_perimeter := car_perimeter s;
     lidar := lidar s;
     car := car s;
     ttc_threshold := ttc_threshold s;
     speed := odom_x;
     brake_msg := brake_msg s |}.

(** Closing velocity of beam [i]. *)
Definition r_hat (speed : R) (m : LaserScan) (i : nat) : R :=
  speed * cos (INR i * angle_increment m + angle_min m).

(** Time to collision of beam [i]. *)
Definition ttc (s : Safety) (m : LaserScan) (i : nat) : R :=
  (nth i (ranges m) 0 - vec_get (car_perimeter s) i) / r_hat (speed s) m i.

(** One iteration of the loop of [scan_callback]. *)
Definition scan_beam (s : Safety) (m : LaserScan) (i : nat)
    : list publication :=
  if Rle_dec (r_hat (speed s) m i) 0 then []
  else if Rlt_dec (ttc s m i) (ttc_threshold s) then
    [brake_pub (brake (brake_msg s)); speed_pub (speed_msg (brake_msg s))]
  else [].

(** [scan_callback]: the messages it publishes, in order.  It changes no
    member. *)
Definition scan_callback (s : Safety) (m : LaserScan) : list publication :=
  if (length (ranges m) =? vec_size (car_perimeter s))%nat then
    flat_map (scan_beam s m) (seq 0 (length (ranges m)))
  else [].

(** The node after construction: one callback per incoming message. *)
Inductive event : Type :=
| Odom (odom_x : R)
| Scan (m : LaserScan).

Definition step (s : Safety) (e : event) : Safety * list publication :=
  match e with
  | Odom x => (odom_callback s x, [])
  | Scan m => (s, scan_callback s m)
  end.

Inductive reachable : Safety -> Prop :=
| reach_new lidar0 car0 shared ps s :
    Safety_new lidar0 car0 shared ps = Some s -> reachable s
| reach_step s e : reachable s -> reachable (fst (step s e)).

End SafetyNode.

(** ** wall_follow.cpp *)

Module WallFollowNode.
Import Cpp.

(** The [lidar_data] member. *)
Record lidar_data_t : Type := mk_lidar_data {
  num_scans : Z;
  min_angle : R;
  max_angle : R;
  scan_inc : R
}.

(** The data members of class [WallFollow] that the scan path touches.
    [L] is declared and never assigned: it holds whatever it held at
    construction. *)
Record WallFollow : Type := mk_wall_follow {
  lidar_data : lidar_data_t;
  err : R;
  prev_err : R;
  a_idx : Z;
  b_idx : Z;
  L : R;
  theta : R
}.

(** [num_scans] as the constructor computes it from the sample scan. *)
Definition num_scans_of (tmp_scan : LaserScan) : option Z :=
  to_int (ceil ((angle_max tmp_scan - angle_min tmp_scan)
                / angle_increment tmp_scan)).

(** The constructor [WallFollow::WallFollow].  [L0] is the indeterminate
    initial value of [L].  Without a sample scan the process exits: [None].
    A conversion to [int] that is out of range, or an [int] subtraction
    that overflows, is undefined: [None]. *)
Definition WallFollow_new (L0 : R) (tmp_scan : option LaserScan)
    : option WallFollow :=
  match tmp_scan with
  | None => None
  | Some m =>
      let theta0 := PI / 4 in
      let inc := angle_increment m in
      let lo := angle_min m in
      match num_scans_of m,
            to_int (round ((PI / 2 - lo) / inc)),
            to_int (round ((PI / 2 - theta0 - lo) / inc)) with
      | Some n, Some b, Some a =>
          match to_int (a - b) with
          | Some diff =>
              Some {| lidar_data := {| num_scans := n;
                                       min_angle := lo;
                                       max_angle := angle_max m;
                                       scan_inc := inc |};
                      err := 0;
                      prev_err := 0;
                      a_idx := a;
                      b_idx := b;
                      L := L0;
                      theta := inc * IZR diff |}
          | None => None
          end
      | _, _, _ => None
      end
  end.

(** [msg.ranges[idx]] for an [int] index; a read outside the vector is
    undefined: [None]. *)
Definition ranges_at (m : LaserScan) (idx : Z) : option R :=
  if (0 <=? idx)%Z then nth_error (ranges m) (Z.to_nat idx) else None.

(** The local variables that [lidar_cb] computes.  [dt_1] is the lookahead
    projection [dt + L * sin alpha]; its line in the body is commented out,
    so no call ever gives it a value. *)
Record estimate : Type := mk_estimate {
  a : R;
  b : R;
  alpha : R;
  dt : R;
  dt_1 : option R
}.

(** [lidar_cb].  It changes no member and publishes nothing; the result is
    the values of its locals. *)
Definition lidar_cb (w : WallFollow) (m : LaserScan) : option estimate :=
  match ranges_at m (a_idx w), ranges_at m (b_idx w) with
  | Some a', Some b' =>
      let alpha' :=
        atan ((a' * cos (theta w) - b') / (a' * sin (theta w))) in
      let dt' := b' * cos alpha' in
      Some {| a := a'; b := b'; alpha := alpha'; dt := dt'; dt_1 := None |}
  | _, _ => None
  end.

End WallFollowNode.

(** ** point_dist.cpp *)

Module PointDistNode.

(** [point_dist/PointDist]. *)
Record PointDist : Type := mk_point {
  distance : R;
  angle : R
}.

(** What the node sends: [max_pub] on /farther_point and [min_pub] on
    /closest_point. *)
Inductive publication : Type :=
| max_pub (p : PointDist)
| min_pub (p : PointDist).

(** One iteration of the loop of [scan_cb] at index [i], where [r] is
    [msg.ranges[i]]. *)
Definition scan_iter (m : LaserScan) (i : nat) (r : R)
    (mx mn : PointDist) : PointDist * PointDist :=
  let mx' :=
    if Rlt_dec (distance mx) r then
      {| distance := r; angle := angle_min m + INR i * angle_increment m |}
    else mx in
  let mn' :=
    if Rgt_dec (distance mn) r then
      {| distance := r; angle := angle_min m + INR i * angle_increment m |}
    else mn in
  (mx', mn').

(** The loop of [scan_cb] from index [i] on, [rs] being the readings from
    that index to the end. *)
Fixpoint scan_loop (m : LaserScan) (i : nat) (rs : list R)
    (mx mn : PointDist) : PointDist * PointDist :=
  match rs with
  | [] => (mx, mn)
  | r :: rs' =>
      let '(mx', mn') := scan_iter m i r mx mn in
      scan_loop m (S i) rs' mx' mn'
  end.

(** [scan_cb]: the messages it publishes, in order.  [msg.ranges[0]] on an
    empty vector is undefined: [None]. *)
Definition scan_cb (m : LaserScan) : option (list publication) :=
  match ranges m with
  | [] => None
  | r0 :: rest =>
      let mx0 := {| distance := r0; angle := angle_min m |} in
      let mn0 := {| distance := r0; angle := angle_min m |} in
      let '(mx, mn) := scan_loop m 1 rest mx0 mn0 in
      Some [max_pub mx; min_pub mn]
  end.

End PointDistNode.

(** ** Vocabulary and concrete inputs of the safety_node properties *)

Module SafetySpec.
Import Cpp SafetyNode.

(** The brake is engaged by an output that carries the brake boolean and
    the zero-speed drive command. *)
Definition brake_engaged (out : list publication) : Prop :=
  In (brake_pub true) out /\
  In (speed_pub {| steering_angle := 0; drive_speed := 0 |}) out.

(** Beam [i] is closing and its time to collision is under the threshold. *)
Definition violating (s : Safety) (m : LaserScan) (i : nat) : Prop :=
  0 < r_hat (speed s) m i /\ ttc s m i < ttc_threshold s.

(** The state of the two scenarios: a one-entry perimeter table holding
    0.3, speed 2, threshold 0.01. *)
Definition scenario_state : Safety :=
  {| car_perimeter := {| elems := [3 / 10]; spare := [] |};
     lidar := {| num_scans := 1; scan_inc := 0; min_angle := 0;
                 max_angle := 0 |};
     car := {| width := 0; wheelbase := 0; base_link := 0 |};
     ttc_threshold := 1 / 100;
     speed := 2;
     brake_msg := initial_brake_msg |}.

(** A one-beam scan at angle 0 with reading [r]. *)
Definition scenario_scan (r : R) : LaserScan :=
  {| angle_min := 0; angle_max := 0; angle_increment := 0; ranges := [r] |}.

(** The vehicle of the spec's perimeter scenario: width 0.2, wheelbase
    0.33, scanner 0.05 ahead of the rear axle. *)
Definition demo_car : car_intrinsics :=
  {| width := 2 / 10; wheelbase := 33 / 100; base_link := 5 / 100 |}.

(** A sample scan of a narrow scanner: three beams from -PI/6 to PI/6. *)
Definition narrow_scan : LaserScan :=
  {| angle_min := - (PI / 6); angle_max := PI / 6;
     angle_increment := PI / 6; ranges := [1; 1; 1] |}.

(** The parameters of [demo_car] with [scan_beams] set to 3. *)
Definition demo_params : params :=
  {| p_width := Some (2 / 10);
     p_scan_distance_to_base_link := Some (5 / 100);
     p_wheelbase := Some (33 / 100);
     p_scan_beams := Some 3 |}.

(** The [lidar] member the constructor ends with on [narrow_scan] and
    [demo_params]. *)
Definition narrow_lidar : lidar_intrinsics :=
  {| num_scans := 3; scan_inc := PI / 6; min_angle := PI / 6;
     max_angle := PI / 6 |}.

(** The node that the constructor builds from [narrow_scan] and
    [demo_params]. *)
Definition narrow_node : Safety :=
  {| car_perimeter := vec_empty;
     lidar := narrow_lidar;
     car := demo_car;
     ttc_threshold := 1 / 100;
     speed := 0;
     brake_msg := initial_brake_msg |}.

(** A sample scan from -1 rad to 1 rad in steps of 0.5 rad. *)
Definition wide_scan : LaserScan :=
  {| angle_min := -1; angle_max := 1; angle_increment := 1 / 2;
     ranges := [1; 1; 1; 1] |}.

(** A parameter server with none of the node's parameters. *)
Definition no_params : params :=
  {| p_width := None; p_scan_distance_to_base_link := None;
     p_wheelbase := None; p_scan_beams := None |}.

(** A one-beam scan at angle PI, straight behind, with reading [r]. *)
Definition rear_scan (r : R) : LaserScan :=
  {| angle_min := PI; angle_max := PI; angle_increment := 0; ranges := [r] |}.

(** Raising the cached speed from [v1] to [v2], both closing on beam [i],
    lowers the time to collision of that beam. *)
Definition ttc_decreases (s : Safety) (m : LaserScan) (i : nat)
    (v1 v2 : R) : Prop :=
  0 < r_hat v1 m i -> 0 < r_hat v2 m i -> v1 < v2 ->
  ttc (odom_callback s v2) m i < ttc (odom_callback s v1) m i.

End SafetySpec.

(** ** Concrete inputs of the wall_follow properties *)

Module WallFollowSpec.
Import Cpp WallFollowNode.

(** A scan of a full-circle scanner with one beam every PI/4 from -PI to
    PI; [a'] and [b'] are the readings at indices 5 and 6, the beams at
    PI/4 and PI/2. *)
Definition ring_scan (a' b' : R) : LaserScan :=
  {| angle_min := - PI; angle_max := PI; angle_increment := PI / 4;
     ranges := [1; 1; 1; 1; 1; a'; b'; 1; 1] |}.

(** The node that the constructor builds from a [ring_scan]. *)
Definition ring_node (L0 : R) : WallFollow :=
  {| lidar_data := {| num_scans := 8; min_angle := - PI; max_angle := PI;
                      scan_inc := PI / 4 |};
     err := 0;
     prev_err := 0;
     a_idx := 5;
     b_idx := 6;
     L := L0;
     theta := PI / 4 * IZR (5 - 6) |}.

(** The lookahead projection of the spec, from the values of an estimate. *)
Definition lookahead (w : WallFollow) (e : estimate) : R :=
  dt e + L w * sin (alpha e).

End WallFollowSpec.

(** ** Vocabulary of the point_dist properties *)

Module PointDistSpec.
Import PointDistNode.

(** [p] records the largest of the first [n] readings of [m], at the
    smallest index that attains it. *)
Definition farthest_among (m : LaserScan) (n : nat) (p : PointDist) : Prop :=
  exists k : nat,
    (k < n)%nat /\
    nth k (ranges m) 0 = distance p /\
    angle p = angle_min m + INR k * angle_increment m /\
    (forall j : nat, (j < n)%nat -> nth j (ranges m) 0 <= distance p) /\
    (forall j : nat, (j < k)%nat -> nth j (ranges m) 0 < distance p).

(** [p] records the smallest of the first [n] readings of [m], at the
    smallest index that attains it. *)
Definition closest_among (m : LaserScan) (n : nat) (p : PointDist) : Prop :=
  exists k : nat,
    (k < n)%nat /\
    nth k (ranges m) 0 = distance p /\
    angle p = angle_min m + INR k * angle_increment m /\
    (forall j : nat, (j < n)%nat -> distance p <= nth j (ranges m) 0) /\
    (forall j : nat, (j < k)%nat -> distance p < nth j (ranges m) 0).

(** A five-beam scan whose largest and smallest readings both occur
    twice. *)
Definition five_beams : LaserScan :=
  {| angle_min := -1; angle_max := 1; angle_increment := 1 / 2;
     ranges := [2; 5; 1; 5; 1] |}.

End PointDistSpec.

(** ** Vocabulary of the further safety_node properties *)

Module SafetyTrace.
Import Cpp SafetyNode.

(** The node fed a sequence of messages: the final state and everything
    published on the way, in order. *)
Fixpoint run (s : Safety) (es : list event) : Safety * list publication :=
  match es with
  | [] => (s, [])
  | e :: es' =>
      let '(s1, out1) := step s e in
      let '(s2, out2) := run s1 es' in
      (s2, out1 ++ out2)
  end.

(** The last odometry sample of a sequence of messages, [v0] when it has
    none. *)
Definition last_odom (v0 : R) (es : list event) : R :=
  fold_left (fun v e => match e with Odom x => x | Scan _ => v end) es v0.

(** The test the loop of [scan_callback] applies to beam [i], as a
    boolean. *)
Definition violates (s : Safety) (m : LaserScan) (i : nat) : bool :=
  if Rle_dec (r_hat (speed s) m i) 0 then false
  else if Rlt_dec (ttc s m i) (ttc_threshold s) then true
  else false.

(** [m'] is a scan of the same beams as [m] with no reading farther. *)
Definition no_farther (m' m : LaserScan) : Prop :=
  angle_min m' = angle_min m /\
  angle_increment m' = angle_increment m /\
  length (ranges m') = length (ranges m) /\
  forall i : nat, nth i (ranges m') 0 <= nth i (ranges m) 0.

(** A geometry with a fractional beam count. *)
Definition fractional_lidar : lidar_intrinsics :=
  {| num_scans := 5 / 2; scan_inc := 1; min_angle := 0; max_angle := 2 |}.

End SafetyTrace.

(** ** Vocabulary of the further point_dist properties *)

Module PointDistStream.

(** The scan [m] with one more reading [r] at its end. *)
Definition append_reading (m : LaserScan) (r : R) : LaserScan :=
  {| angle_min := angle_min m;
     angle_max := angle_max m;
     angle_increment := angle_increment m;
     ranges := ranges m ++ [r] |}.

End PointDistStream.

(** ** Vocabulary of the beam-count property *)

Module SafetyBeams.
Import Cpp SafetyNode.

(** Beam [i] has a positive closing velocity
    [speed * cos (angle_min + i * angle_increment)] and a time to collision
    [(ranges[i] - car_perimeter[i]) / closing velocity] under the
    threshold. *)
Definition under_threshold (s : Safety) (m : LaserScan) (i : nat) : bool :=
  if Rlt_dec 0 (speed s * cos (angle_min m + INR i * angle_increment m))
  then
    if Rlt_dec
         ((nth i (ranges m) 0 - nth i (elems (car_perimeter s)) 0)
          / (speed s * cos (angle_min m + INR i * angle_increment m)))
         (ttc_threshold s)
    then true else false
  else false.

(** Speed 2, threshold 0.01 and a three-entry perimeter table of 0.3. *)
Definition three_state : Safety :=
  {| car_perimeter := {| elems := [3 / 10; 3 / 10; 3 / 10]; spare := [] |};
     lidar := {| num_scans := 3; scan_inc := PI; min_angle := 0;
                 max_angle := 2 * PI |};
     car := {| width := 0; wheelbase := 0; base_link := 0 |};
     ttc_threshold := 1 / 100;
     speed := 2;
     brake_msg := initial_brake_msg |}.

(** Three beams at the angles 0, PI and 2 PI, each reading 0.31. *)
Definition half_turn_scan : LaserScan :=
  {| angle_min := 0; angle_max := 2 * PI; angle_increment := PI;
     ranges := [31 / 100; 31 / 100; 31 / 100] |}.

End SafetyBeams.

(** * Properties *)

(** ** Facts about the library functions *)

Module CppFacts.
Import Cpp.

Lemma std_min_Rmin (x y : R) : std_min x y = Rmin x y.
Proof.
  unfold std_min, Rmin.
  destruct (Rlt_dec y x) as [Hlt | Hge], (Rle_dec x y) as [Hle | Hgt];
    lra.
Qed.

Lemma floor_unique (r : R) (z : Z) :
  IZR z <= r -> r < IZR z + 1 -> floor r = z.
Proof.
  intros Hlo Hhi. unfold floor, Int_part.
  assert (Hup : (z + 1)%Z = up r).
  { apply up_tech; [exact Hlo | rewrite plus_IZR; exact Hhi]. }
  lia.
Qed.

Lemma floor_IZR (z : Z) : floor (IZR z) = z.
Proof. apply floor_unique; lra. Qed.

Lemma to_size_t_INR (n : nat) :
  (Z.of_nat n <= SIZE_MAX)%Z -> to_size_t (INR n) = Some n.
Proof.
  intros Hmax. unfold to_size_t, trunc.
  destruct (Rle_dec 0 (INR n)) as [_ | Hneg].
  - rewrite INR_IZR_INZ, floor_IZR.
    replace (0 <=? Z.of_nat n)%Z with true by (symmetry; apply Z.leb_le; lia).
    replace (Z.of_nat n <=? SIZE_MAX)%Z with true
      by (symmetry; apply Z.leb_le; exact Hmax).
    simpl. now rewrite Nat2Z.id.
  - exfalso. apply Hneg, pos_INR.
Qed.

Lemma to_size_t_small (r : R) : 0 <= r -> r < 1 -> to_size_t r = Some 0%nat.
Proof.
  intros Hlo Hhi. unfold to_size_t, trunc.
  destruct (Rle_dec 0 r) as [_ | Hneg]; [| contradiction].
  rewrite (floor_unique r 0) by (simpl; lra).
  reflexivity.
Qed.

Lemma length_list_set {A : Type} (i : nat) (x : A) (l : list A) :
  length (list_set i x l) = length l.
Proof.
  revert i; induction l as [| h t IH]; intros [| j]; simpl; auto.
Qed.

Lemma vec_store_size (v v' : std_vector) (i : nat) (x : R) :
  vec_store v i x = Some v' -> vec_size v' = vec_size v.
Proof.
  unfold vec_store, vec_size.
  destruct (i <? length (elems v))%nat.
  - intros [= <-]. simpl. apply length_list_set.
  - destruct (i - length (elems v) <? length (spare v))%nat;
      [intros [= <-]; reflexivity | discriminate].
Qed.

Lemma reserve_size (n : nat) (v : std_vector) :
  vec_size (reserve n v) = vec_size v.
Proof.
  unfold reserve. destruct (n <=? vec_capacity v)%nat; reflexivity.
Qed.

Lemma vec_store_capacity (v v' : std_vector) (i : nat) (x : R) :
  vec_store v i x = Some v' -> vec_capacity v' = vec_capacity v.
Proof.
  unfold vec_store, vec_capacity.
  destruct (i <? length (elems v))%nat.
  - intros [= <-]. simpl. now rewrite length_list_set.
  - destruct (i - length (elems v) <? length (spare v))%nat;
      [| discriminate].
    intros [= <-]. simpl. now rewrite length_list_set.
Qed.

Lemma reserve_capacity (n : nat) :
  vec_capacity (reserve n vec_empty) = n.
Proof.
  unfold reserve, vec_capacity. simpl.
  destruct (Nat.leb_spec n 0) as [Hle | Hgt]; simpl.
  - lia.
  - rewrite repeat_length. lia.
Qed.

Lemma reserve_elems (n : nat) : elems (reserve n vec_empty) = [].
Proof.
  unfold reserve. destruct (n <=? vec_capacity vec_empty)%nat; reflexivity.
Qed.

Lemma reserve_spare (n : nat) : length (spare (reserve n vec_empty)) = n.
Proof.
  pose proof (reserve_capacity n) as H. unfold vec_capacity in H.
  rewrite reserve_elems in H. exact H.
Qed.

Lemma ceil_IZR (z : Z) : ceil (IZR z) = z.
Proof.
  unfold ceil. rewrite <- opp_IZR, floor_IZR. lia.
Qed.

Lemma round_IZR (z : Z) : round (IZR z) = z.
Proof.
  unfold round. destruct (Rle_dec 0 (IZR z)) as [Hpos | Hneg].
  - apply floor_unique; lra.
  - rewrite <- opp_IZR, (floor_unique _ (- z)); [lia | lra | lra].
Qed.

End CppFacts.

(** ** safety_node: the brake law of [scan_callback] *)

Module SafetyFacts.
Import Cpp CppFacts SafetyNode SafetySpec.

Lemma scan_beam_violating (s : Safety) (m : LaserScan) (i : nat) :
  violating s m i ->
  scan_beam s m i =
    [brake_pub (brake (brake_msg s)); speed_pub (speed_msg (brake_msg s))].
Proof.
  intros [Hpos Httc]. unfold scan_beam.
  destruct (Rle_dec (r_hat (speed s) m i) 0) as [Hle | _]; [lra |].
  destruct (Rlt_dec (ttc s m i) (ttc_threshold s)) as [_ | Hge];
    [reflexivity | contradiction].
Qed.

Lemma scan_beam_quiet (s : Safety) (m : LaserScan) (i : nat) :
  ~ violating s m i -> scan_beam s m i = [].
Proof.
  intros Hnot. unfold scan_beam.
  destruct (Rle_dec (r_hat (speed s) m i) 0) as [Hle | Hgt];
    [reflexivity |].
  destruct (Rlt_dec (ttc s m i) (ttc_threshold s)) as [Hlt | _];
    [| reflexivity].
  exfalso. apply Hnot. split; lra.
Qed.

Lemma violating_dec (s : Safety) (m : LaserScan) (i : nat) :
  violating s m i \/ ~ violating s m i.
Proof.
  unfold violating.
  destruct (Rlt_dec 0 (r_hat (speed s) m i)) as [H1 | H1];
    destruct (Rlt_dec (ttc s m i) (ttc_threshold s)) as [H2 | H2];
    tauto.
Qed.

Lemma in_scan_callback (s : Safety) (m : LaserScan) (p : publication) :
  length (ranges m) = vec_size (car_perimeter s) ->
  In p (scan_callback s m) <->
  exists i, (i < length (ranges m))%nat /\ In p (scan_beam s m i).
Proof.
  intros Hlen. unfold scan_callback.
  rewrite (proj2 (Nat.eqb_eq _ _) Hlen), in_flat_map.
  split; intros [i [Hi Hp]]; exists i; split; auto.
  - apply in_seq in Hi. lia.
  - apply in_seq. lia.
Qed.

Lemma scenario_r_hat (r : R) :
  r_hat (speed scenario_state) (scenario_scan r) 0 = 2.
Proof.
  unfold r_hat. simpl.
  replace (0 * 0 + 0) with 0 by lra. rewrite cos_0. lra.
Qed.

Lemma scenario_ttc (r : R) :
  ttc scenario_state (scenario_scan r) 0 = (r - 3 / 10) / 2.
Proof.
  unfold ttc. rewrite scenario_r_hat. reflexivity.
Qed.

Lemma scenario_callback (r : R) :
  scan_callback scenario_state (scenario_scan r) =
  scan_beam scenario_state (scenario_scan r) 0.
Proof. unfold scan_callback. simpl. apply app_nil_r. Qed.

(** The closing velocity of the code is the product of the speed and the
    cosine of the beam's angle. *)
Lemma r_hat_formula (v : R) (m : LaserScan) (i : nat) :
  r_hat v m i = v * cos (angle_min m + INR i * angle_increment m).
Proof. unfold r_hat. now rewrite Rplus_comm. Qed.

Lemma ttc_formula (s : Safety) (m : LaserScan) (i : nat) :
  ttc s m i =
  (nth i (ranges m) 0 - nth i (elems (car_perimeter s)) 0)
  / (speed s * cos (angle_min m + INR i * angle_increment m)).
Proof. unfold ttc, vec_get. now rewrite r_hat_formula. Qed.

Lemma violating_formulas (s : Safety) (m : LaserScan) (i : nat) :
  violating s m i <->
  0 < speed s * cos (angle_min m + INR i * angle_increment m) /\
  (nth i (ranges m) 0 - nth i (elems (car_perimeter s)) 0)
  / (speed s * cos (angle_min m + INR i * angle_increment m))
  < ttc_threshold s.
Proof.
  unfold violating. rewrite ttc_formula, r_hat_formula. reflexivity.
Qed.

(** The law of [scan_callback] in terms of the test its loop applies. *)
Lemma scan_callback_law (s : Safety) (m : LaserScan) :
  brake_msg s = initial_brake_msg ->
  length (ranges m) = vec_size (car_perimeter s) ->
  (brake_engaged (scan_callback s m) <->
   exists i, (i < length (ranges m))%nat /\ violating s m i) /\
  ((forall i, (i < length (ranges m))%nat -> ~ violating s m i) ->
   scan_callback s m = []).
Proof.
  intros Hmsg Hlen. split.
  - split.
    + intros [Hb _].
      apply (in_scan_callback s m _ Hlen) in Hb.
      destruct Hb as [i [Hi Hin]]. exists i. split; [exact Hi |].
      destruct (violating_dec s m i) as [Hv | Hv]; [exact Hv |].
      rewrite (scan_beam_quiet s m i Hv) in Hin. destruct Hin.
    + intros [i [Hi Hv]].
      unfold brake_engaged.
      split; apply (in_scan_callback s m _ Hlen); exists i;
        (split; [exact Hi |]);
        rewrite (scan_beam_violating s m i Hv), Hmsg; simpl; auto.
  - intros Hquiet.
    destruct (scan_callback s m) as [| p out] eqn:Hout; [reflexivity |].
    assert (Hin : In p (scan_callback s m)) by (rewrite Hout; now left).
    apply (in_scan_callback s m _ Hlen) in Hin.
    destruct Hin as [i [Hi Hin]].
    rewrite (scan_beam_quiet s m i (Hquiet i Hi)) in Hin. destruct Hin.
Qed.

(** C1.  For a scan whose [ranges] is as long as the perimeter table, and
    with the cached [speed], [scan_callback] publishes the brake boolean and
    the zero-speed drive command if and only if some beam [i] has closing
    velocity [speed * cos (angle_min + i * angle_increment) > 0] and
    [(ranges[i] - car_perimeter[i]) / closing velocity < ttc_threshold];
    when no beam does, it publishes nothing.  With speed 2, beam angle 0,
    perimeter 0.3 and threshold 0.01, the reading 1.0 gives closing
    velocity 2, time to collision 0.35 and no brake; the reading 0.31 gives
    0.005 and the brake. *)
Theorem brake_trigger_law :
  (forall (s : Safety) (m : LaserScan),
     brake_msg s = initial_brake_msg ->
     length (ranges m) = vec_size (car_perimeter s) ->
     (brake_engaged (scan_callback s m) <->
      exists i : nat,
        (i < length (ranges m))%nat /\
        0 < speed s * cos (angle_min m + INR i * angle_increment m) /\
        (nth i (ranges m) 0 - nth i (elems (car_perimeter s)) 0)
        / (speed s * cos (angle_min m + INR i * angle_increment m))
        < ttc_threshold s) /\
     ((forall i : nat,
         (i < length (ranges m))%nat ->
         ~ (0 < speed s * cos (angle_min m + INR i * angle_increment m) /\
            (nth i (ranges m) 0 - nth i (elems (car_perimeter s)) 0)
            / (speed s * cos (angle_min m + INR i * angle_increment m))
            < ttc_threshold s)) ->
      scan_callback s m = [])) /\
  (r_hat (speed scenario_state) (scenario_scan 1) 0 = 2 /\
   ttc scenario_state (scenario_scan 1) 0 = 35 / 100 /\
   scan_callback scenario_state (scenario_scan 1) = []) /\
  (r_hat (speed scenario_state) (scenario_scan (31 / 100)) 0 = 2 /\
   ttc scenario_state (scenario_scan (31 / 100)) 0 = 5 / 1000 /\
   scan_callback scenario_state (scenario_scan (31 / 100)) =
     [brake_pub true;
      speed_pub {| steering_angle := 0; drive_speed := 0 |}]).
Proof.
  split; [| split].
  - intros s m Hmsg Hlen.
    destruct (scan_callback_law s m Hmsg Hlen) as [Hiff Hquiet]. split.
    + rewrite Hiff. split; intros [i [Hi Hv]]; exists i;
        (split; [exact Hi | apply (violating_formulas s m i); exact Hv]).
    + intros Hnone. apply Hquiet. intros i Hi Hv.
      apply (Hnone i Hi). apply (violating_formulas s m i). exact Hv.
  - split; [apply scenario_r_hat |].
    rewrite scenario_ttc. split; [lra |].
    rewrite scenario_callback. apply scan_beam_quiet.
    unfold violating. rewrite scenario_ttc. simpl. lra.
  - split; [apply scenario_r_hat |].
    rewrite scenario_ttc. split; [lra |].
    rewrite scenario_callback.
    apply (scan_beam_violating scenario_state (scenario_scan (31 / 100)) 0).
    unfold violating. rewrite scenario_ttc, scenario_r_hat. simpl. lra.
Qed.

(** The brake law on two one-beam scans with the reading 0.31 at speed 2:
    straight ahead the brake engages; straight behind the closing velocity
    is [2 * cos PI = -2] and it does not. *)
Lemma brake_trigger_law_witness :
  brake_engaged (scan_callback scenario_state (scenario_scan (31 / 100))) /\
  ~ brake_engaged (scan_callback scenario_state (rear_scan (31 / 100))).
Proof.
  split.
  - apply (proj2 (proj1 (proj1 brake_trigger_law scenario_state
                           (scenario_scan (31 / 100)) eq_refl eq_refl))).
    exists 0%nat. simpl.
    replace (0 + 0 * 0) with 0 by lra. rewrite cos_0.
    repeat split; [lia | lra | lra].
  - intros Hb.
    apply (proj1 (proj1 (proj1 brake_trigger_law scenario_state
                           (rear_scan (31 / 100)) eq_refl eq_refl))) in Hb.
    destruct Hb as [i [Hi [Hpos _]]].
    simpl in Hi. assert (i = 0%nat) by lia. subst i.
    simpl in Hpos. replace (PI + 0 * 0) with PI in Hpos by lra.
    rewrite cos_PI in Hpos. lra.
Defined.

(** ** safety_node: what [compute_car_perim] returns *)

Lemma nth_error_list_set {A : Type} (i j : nat) (x : A) (l : list A) :
  (i < length l)%nat ->
  nth_error (list_set i x l) j =
    if (j =? i)%nat then Some x else nth_error l j.
Proof.
  revert i j; induction l as [| h t IH]; intros i j Hi; simpl in Hi.
  - lia.
  - destruct i as [| i'], j as [| j']; simpl; auto.
    apply IH. lia.
Qed.

Lemma vec_slot_store (v v' : std_vector) (i j : nat) (x : R) :
  vec_store v i x = Some v' ->
  vec_slot v' j = if (j =? i)%nat then Some x else vec_slot v j.
Proof.
  unfold vec_store, vec_slot.
  destruct (i <? length (elems v))%nat eqn:Hi.
  - intros [= <-]. simpl. rewrite length_list_set.
    apply Nat.ltb_lt in Hi.
    destruct (j <? length (elems v))%nat eqn:Hj.
    + now apply nth_error_list_set.
    + apply Nat.ltb_ge in Hj.
      replace (j =? i)%nat with false
        by (symmetry; apply Nat.eqb_neq; lia).
      reflexivity.
  - apply Nat.ltb_ge in Hi.
    destruct (i - length (elems v) <? length (spare v))%nat eqn:Hs;
      [| discriminate].
    intros [= <-]. simpl. apply Nat.ltb_lt in Hs.
    destruct (j <? length (elems v))%nat eqn:Hj.
    + apply Nat.ltb_lt in Hj.
      replace (j =? i)%nat with false
        by (symmetry; apply Nat.eqb_neq; lia).
      reflexivity.
    + apply Nat.ltb_ge in Hj.
      rewrite (nth_error_list_set _ _ _ _ Hs).
      destruct (Nat.eqb_spec j i) as [-> | Hne].
      * now rewrite Nat.eqb_refl.
      * replace (j - length (elems v) =? i - length (elems v))%nat
          with false by (symmetry; apply Nat.eqb_neq; lia).
        reflexivity.
Qed.

(** The loop never changes [size()]. *)
Lemma perim_loop_size (c : car_intrinsics) (n angle : R) (fuel : nat) :
  forall (i : nat) (v v' : std_vector),
    perim_loop c n angle fuel i v = Some v' -> vec_size v' = vec_size v.
Proof.
  induction fuel as [| fuel IH]; intros i v v'; simpl;
    destruct (Rlt_dec (INR i) n) as [Hlt | Hge];
    try discriminate; try (intros [= <-]; reflexivity).
  destruct (vec_store v i (perim_entry c angle)) as [v1 |] eqn:Hstore;
    [| discriminate].
  intros Hloop. rewrite (IH _ _ _ Hloop).
  exact (vec_store_size _ _ _ _ Hstore).
Qed.

(** Every slot the loop writes holds the entry for the one [angle] it was
    started with; the other slots keep what they held. *)
Lemma perim_loop_slot (c : car_intrinsics) (n angle : R) (fuel : nat) :
  forall (i : nat) (v v' : std_vector),
    perim_loop c n angle fuel i v = Some v' ->
    forall j : nat,
      ((i <= j)%nat -> INR j < n ->
       vec_slot v' j = Some (perim_entry c angle)) /\
      ((j < i)%nat -> vec_slot v' j = vec_slot v j).
Proof.
  induction fuel as [| fuel IH]; intros i v v'; simpl;
    destruct (Rlt_dec (INR i) n) as [Hlt | Hge]; try discriminate.
  - intros [= <-] j. split; [| reflexivity].
    intros Hij Hj. exfalso. apply Hge.
    apply Rle_lt_trans with (INR j); [apply le_INR; exact Hij | exact Hj].
  - destruct (vec_store v i (perim_entry c angle)) as [v1 |] eqn:Hstore;
      [| discriminate].
    intros Hloop j. destruct (IH _ _ _ Hloop j) as [Hin Hout].
    pose proof (vec_slot_store _ _ _ j _ Hstore) as Hs.
    split.
    + intros Hij Hj. destruct (Nat.eq_dec j i) as [-> | Hne].
      * rewrite Hout by lia. rewrite Hs, Nat.eqb_refl. reflexivity.
      * apply Hin; [lia | exact Hj].
    + intros Hji. rewrite Hout by lia. rewrite Hs.
      replace (j =? i)%nat with false
        by (symmetry; apply Nat.eqb_neq; lia).
      reflexivity.
  - intros [= <-] j. split; [| reflexivity].
    intros Hij Hj. exfalso. apply Hge.
    apply Rle_lt_trans with (INR j); [apply le_INR; exact Hij | exact Hj].
Qed.

(** With an integral beam count [k] the loop returns: every store lands
    inside the [k] reserved slots. *)
Lemma perim_loop_returns (c : car_intrinsics) (k : nat) (angle : R)
    (fuel : nat) :
  forall (i : nat) (v : std_vector),
    elems v = [] -> length (spare v) = k -> (k - i < fuel)%nat ->
    exists v', perim_loop c (INR k) angle fuel i v = Some v'.
Proof.
  induction fuel as [| fuel IH]; intros i v He Hs Hfuel; [lia |].
  simpl. destruct (Rlt_dec (INR i) (INR k)) as [Hlt | Hge];
    [| now exists v].
  apply INR_lt in Hlt.
  unfold vec_store. rewrite He. simpl.
  rewrite Nat.sub_0_r.
  replace (i <? length (spare v))%nat with true
    by (symmetry; apply Nat.ltb_lt; lia).
  apply IH; simpl; [reflexivity | rewrite length_list_set; exact Hs | lia].
Qed.

(** The loop gives no result only when it reaches a store at or beyond the
    reserved capacity: the fuel never runs out first. *)
Lemma perim_loop_undefined (c : car_intrinsics) (n angle : R) (fuel : nat) :
  forall (i : nat) (v : std_vector),
    elems v = [] -> (length (spare v) < i + fuel)%nat ->
    perim_loop c n angle fuel i v = None ->
    exists j : nat, (length (spare v) <= j)%nat /\ INR j < n.
Proof.
  induction fuel as [| fuel IH]; intros i v He Hfuel; simpl;
    destruct (Rlt_dec (INR i) n) as [Hlt | Hge]; try discriminate.
  - intros _. exists i. split; [lia | exact Hlt].
  - unfold vec_store. rewrite He. simpl. rewrite Nat.sub_0_r.
    destruct (Nat.ltb_spec i (length (spare v))) as [Hin | Hout].
    + intros Hloop. apply IH in Hloop.
      * destruct Hloop as [j [Hj Hn]]. exists j.
        simpl in Hj. rewrite length_list_set in Hj. split; assumption.
      * reflexivity.
      * simpl. rewrite length_list_set. lia.
    + intros _. exists i. split; [exact Hout | exact Hlt].
Qed.

Lemma compute_car_perim_undefined (c : car_intrinsics)
    (l : lidar_intrinsics) :
  compute_car_perim c l = None ->
  to_size_t (num_scans l) = None \/ to_size_t (min_angle l) = None \/
  exists cap j : nat,
    to_size_t (num_scans l) = Some cap /\ (cap <= j)%nat /\
    INR j < num_scans l.
Proof.
  unfold compute_car_perim.
  destruct (to_size_t (num_scans l)) as [cap |]; [| now left].
  destruct (to_size_t (min_angle l)) as [i0 |]; [| now right; left].
  intros Hloop. right; right.
  apply perim_loop_undefined in Hloop.
  - destruct Hloop as [j [Hj Hn]]. rewrite reserve_spare in Hj.
    exists cap, j. repeat split; assumption.
  - apply reserve_elems.
  - rewrite reserve_spare. lia.
Qed.

Lemma compute_car_perim_returns (c : car_intrinsics) (l : lidar_intrinsics)
    (k i0 : nat) :
  num_scans l = INR k -> (Z.of_nat k <= SIZE_MAX)%Z ->
  to_size_t (min_angle l) = Some i0 ->
  exists v, compute_car_perim c l = Some v.
Proof.
  intros Hk Hmax Hi0. unfold compute_car_perim.
  rewrite Hk, (to_size_t_INR k Hmax), Hi0.
  apply perim_loop_returns;
    [apply reserve_elems | apply reserve_spare | lia].
Qed.

Lemma perim_loop_capacity (c : car_intrinsics) (n angle : R) (fuel : nat) :
  forall (i : nat) (v v' : std_vector),
    perim_loop c n angle fuel i v = Some v' ->
    vec_capacity v' = vec_capacity v.
Proof.
  induction fuel as [| fuel IH]; intros i v v'; simpl;
    destruct (Rlt_dec (INR i) n) as [Hlt | Hge];
    try discriminate; try (intros [= <-]; reflexivity).
  destruct (vec_store v i (perim_entry c angle)) as [v1 |] eqn:Hstore;
    [| discriminate].
  intros Hloop. rewrite (IH _ _ _ Hloop).
  exact (vec_store_capacity _ _ _ _ Hstore).
Qed.

(** The returned vector has the capacity that [reserve] was asked for. *)
Lemma compute_car_perim_capacity (c : car_intrinsics) (l : lidar_intrinsics)
    (v : std_vector) (cap : nat) :
  compute_car_perim c l = Some v -> to_size_t (num_scans l) = Some cap ->
  vec_capacity v = cap.
Proof.
  unfold compute_car_perim. intros Hc Hcap. rewrite Hcap in Hc.
  destruct (to_size_t (min_angle l)) as [i0 |]; [| discriminate].
  rewrite (perim_loop_capacity _ _ _ _ _ _ _ Hc).
  apply reserve_capacity.
Qed.

(** The returned vector has [size() == 0] for every input. *)
Lemma compute_car_perim_size (c : car_intrinsics) (l : lidar_intrinsics)
    (v : std_vector) :
  compute_car_perim c l = Some v -> vec_size v = 0%nat.
Proof.
  unfold compute_car_perim.
  destruct (to_size_t (num_scans l)) as [cap |]; [| discriminate].
  destruct (to_size_t (min_angle l)) as [i0 |]; [| discriminate].
  intros Hloop. rewrite (perim_loop_size _ _ _ _ _ _ _ Hloop).
  apply reserve_size.
Qed.

(** Every slot from [size_t(min_angle)] up to the beam count holds the
    entry for [min_angle]. *)
Lemma compute_car_perim_slot (c : car_intrinsics) (l : lidar_intrinsics)
    (v : std_vector) (i0 j : nat) :
  compute_car_perim c l = Some v ->
  to_size_t (min_angle l) = Some i0 ->
  (i0 <= j)%nat -> INR j < num_scans l ->
  vec_slot v j = Some (perim_entry c (min_angle l)).
Proof.
  unfold compute_car_perim. intros Hc Hi0. rewrite Hi0 in Hc.
  destruct (to_size_t (num_scans l)) as [cap |]; [| discriminate].
  intros Hj Hn.
  exact (proj1 (perim_loop_slot _ _ _ _ _ _ _ Hc j) Hj Hn).
Qed.

Lemma PI6_bounds : 0 < PI / 6 /\ PI / 6 < 1.
Proof.
  pose proof PI_RGT_0. pose proof PI_4. split; lra.
Qed.

Lemma sqrt3_bounds : 1 < sqrt 3 /\ sqrt 3 < 2.
Proof.
  split.
  - rewrite <- sqrt_1 at 1. apply sqrt_lt_1; lra.
  - replace 2 with (sqrt 4).
    + apply sqrt_lt_1; lra.
    + replace 4 with (2 * 2) by lra. apply sqrt_square. lra.
Qed.

Lemma narrow_returns :
  exists v, compute_car_perim demo_car narrow_lidar = Some v.
Proof.
  apply (compute_car_perim_returns demo_car narrow_lidar 3 0).
  - simpl. lra.
  - unfold SIZE_MAX. lia.
  - apply to_size_t_small; simpl; pose proof PI6_bounds; lra.
Qed.

(** The entry for the angle PI/6 on [demo_car]: the side wall, at
    0.1 / cos (PI/6). *)
Lemma perim_entry_PI6 : perim_entry demo_car (PI / 6) = 2 / 10 / sqrt 3.
Proof.
  pose proof PI6_bounds as [Hlo Hhi]. pose proof PI_RGT_0 as Hpi.
  pose proof sqrt3_bounds as [Hs1 Hs2].
  unfold perim_entry.
  destruct (Rlt_dec 0 (PI / 6)) as [_ | Hn]; [| lra].
  destruct (Rlt_dec (PI / 6) (PI / 2)) as [_ | Hn]; [| lra].
  unfold first_quadrant. simpl.
  rewrite cos_shift, sin_PI6, cos_PI6, std_min_Rmin.
  rewrite Rmin_left.
  - field. lra.
  - apply Rle_trans with (2 / 10).
    + apply Rmult_le_reg_r with (sqrt 3); [lra |].
      replace (2 / 10 / 2 / (sqrt 3 / 2) * sqrt 3) with (2 / 10)
        by (field; lra).
      nra.
    + lra.
Qed.

(** The entry for the angle PI/3 on [demo_car]: the side wall, at
    0.1 / cos (PI/3) = 0.2. *)
Lemma perim_entry_PI3 : perim_entry demo_car (PI / 3) = 2 / 10.
Proof.
  pose proof PI_RGT_0 as Hpi. pose proof sqrt3_bounds as [Hs1 Hs2].
  unfold perim_entry.
  destruct (Rlt_dec 0 (PI / 3)) as [_ | Hn]; [| lra].
  destruct (Rlt_dec (PI / 3) (PI / 2)) as [_ | Hn]; [| lra].
  unfold first_quadrant. simpl.
  rewrite cos_shift, sin_PI3, cos_PI3, std_min_Rmin.
  rewrite Rmin_left.
  - field.
  - replace (2 / 10 / 2 / (1 / 2)) with (2 / 10) by field.
    apply Rmult_le_reg_r with (sqrt 3); [lra |].
    replace ((33 / 100 - 5 / 100) / (sqrt 3 / 2) * sqrt 3) with (56 / 100)
      by (field; lra).
    nra.
Qed.


(** C3.  [compute_car_perim] does not evaluate the quadrant formula at each
    beam's own angle: [angle] stays at [min_angle], so every slot the loop
    writes holds the entry for [min_angle].  On [demo_car] with three beams
    from PI/6 in steps of PI/6, slot 1 holds 0.2 / sqrt 3, the entry for
    PI/6, where the formula at the beam's angle PI/3 gives 0.2. *)
Theorem perimeter_entries_use_min_angle :
  exists v : std_vector,
    compute_car_perim demo_car narrow_lidar = Some v /\
    (forall j : nat, (j < 3)%nat ->
       vec_slot v j = Some (perim_entry demo_car (min_angle narrow_lidar))) /\
    perim_entry demo_car (min_angle narrow_lidar) = 2 / 10 / sqrt 3 /\
    perim_entry demo_car
      (min_angle narrow_lidar + INR 1 * scan_inc narrow_lidar) = 2 / 10 /\
    vec_slot v 1 <>
      Some (perim_entry demo_car
              (min_angle narrow_lidar + INR 1 * scan_inc narrow_lidar)).
Proof.
  destruct narrow_returns as [v Hv]. exists v.
  assert (Hslot : forall j : nat, (j < 3)%nat ->
            vec_slot v j = Some (perim_entry demo_car (min_angle narrow_lidar))).
  { intros j Hj.
    apply (compute_car_perim_slot demo_car narrow_lidar v 0 j Hv).
    - apply to_size_t_small; simpl; pose proof PI6_bounds; lra.
    - lia.
    - change (num_scans narrow_lidar) with 3.
      replace 3 with (INR 3) by (simpl; lra).
      apply lt_INR. exact Hj. }
  assert (Hpi3 : min_angle narrow_lidar + INR 1 * scan_inc narrow_lidar
                 = PI / 3) by (simpl; field).
  pose proof sqrt3_bounds as [Hs1 Hs2].
  repeat split.
  - exact Hv.
  - exact Hslot.
  - exact perim_entry_PI6.
  - rewrite Hpi3. exact perim_entry_PI3.
  - rewrite (Hslot 1%nat) by lia. rewrite Hpi3, perim_entry_PI3.
    change (min_angle narrow_lidar) with (PI / 6).
    rewrite perim_entry_PI6.
    intros [= Heq].
    assert (Hq : 2 / 10 / sqrt 3 * sqrt 3 = 2 / 10) by (field; lra).
    rewrite Heq in Hq. nra.
Qed.

Lemma narrow_node_new (lidar0 : lidar_intrinsics) (car0 : car_intrinsics) :
  Safety_new lidar0 car0 (Some narrow_scan) demo_params = Some narrow_node.
Proof.
  destruct narrow_returns as [v Hv].
  change (Safety_new lidar0 car0 (Some narrow_scan) demo_params)
    with (match compute_car_perim demo_car narrow_lidar with
          | Some _ => Some narrow_node
          | None => None
          end).
  rewrite Hv. reflexivity.
Qed.

(** C4.  The table that [compute_car_perim] returns does not have one entry
    per beam: [reserve] sets the capacity and the stores never change
    [size()], so the returned vector has length 0.  With three beams the
    result has [size() == 0], and the node built from the same geometry
    keeps an empty [car_perimeter]. *)
Theorem perimeter_table_has_no_entries :
  to_size_t (num_scans narrow_lidar) = Some 3%nat /\
  (exists v : std_vector,
     compute_car_perim demo_car narrow_lidar = Some v /\
     vec_size v = 0%nat /\ vec_capacity v = 3%nat) /\
  (forall lidar0 car0, exists s : Safety,
     Safety_new lidar0 car0 (Some narrow_scan) demo_params = Some s /\
     lidar s = narrow_lidar /\ vec_size (car_perimeter s) = 0%nat).
Proof.
  assert (Hcap : to_size_t (num_scans narrow_lidar) = Some 3%nat).
  { change (num_scans narrow_lidar) with 3.
    replace 3 with (INR 3) by (simpl; lra).
    apply to_size_t_INR. unfold SIZE_MAX. lia. }
  split; [exact Hcap | split].
  - destruct narrow_returns as [v Hv]. exists v.
    split; [exact Hv |]. split.
    + exact (compute_car_perim_size _ _ _ Hv).
    + exact (compute_car_perim_capacity _ _ _ _ Hv Hcap).
  - intros lidar0 car0. exists narrow_node.
    split; [apply narrow_node_new |]. split; reflexivity.
Qed.

(** ** safety_node: the quadrant formulas at the boundaries *)

(** Inside the fourth quadrant the fourth branch is negative: its
    [bottom_right] divides by [cos (PI/2 - angle)], which is [sin angle],
    below zero there. *)
Lemma fourth_quadrant_negative (c : car_intrinsics) (angle : R) :
  0 < base_link c -> - PI / 2 < angle -> angle < 0 ->
  fourth_quadrant c angle < 0.
Proof.
  intros Hbl Hlo Hhi. pose proof PI_RGT_0 as Hpi.
  unfold fourth_quadrant. rewrite std_min_Rmin.
  apply Rle_lt_trans with (base_link c / cos (PI / 2 - angle));
    [apply Rmin_l |].
  rewrite cos_shift.
  assert (Hsin : sin angle < 0) by (apply sin_lt_0_var; lra).
  assert (Hinv : / sin angle < 0) by (apply Rinv_lt_0_compat; exact Hsin).
  unfold Rdiv. nra.
Qed.

(** Inside the third quadrant the third branch is positive. *)
Lemma third_quadrant_positive (c : car_intrinsics) (angle : R) :
  0 < base_link c -> 0 < width c -> - PI < angle -> angle < - PI / 2 ->
  0 < third_quadrant c angle.
Proof.
  intros Hbl Hw Hlo Hhi. pose proof PI_RGT_0 as Hpi.
  unfold third_quadrant. rewrite std_min_Rmin.
  apply Rmin_glb_lt.
  - apply Rdiv_lt_0_compat; [lra |].
    apply cos_gt_0; lra.
  - apply Rdiv_lt_0_compat; [exact Hbl |].
    apply cos_gt_0; lra.
Qed.

(** C8.  The formulas of the third and the fourth quadrant do not agree at
    their common boundary -PI/2.  On [demo_car] the fourth-quadrant formula,
    the one [compute_car_perim] uses at that angle, gives -0.05: its
    [bottom_right] is [base_link / cos PI].  The third-quadrant formula is
    not negative there. *)
Theorem quadrants_disagree_at_minus_half_PI :
  perim_entry demo_car (- PI / 2) = fourth_quadrant demo_car (- PI / 2) /\
  fourth_quadrant demo_car (- PI / 2) = - (5 / 100) /\
  0 <= third_quadrant demo_car (- PI / 2) /\
  third_quadrant demo_car (- PI / 2) <> fourth_quadrant demo_car (- PI / 2).
Proof.
  pose proof PI_RGT_0 as Hpi.
  assert (H4 : fourth_quadrant demo_car (- PI / 2) = - (5 / 100)).
  { unfold fourth_quadrant. simpl.
    replace (PI / 2 - - PI / 2) with PI by field.
    replace (- (- PI / 2)) with (PI / 2) by field.
    rewrite cos_PI, cos_PI2, std_min_Rmin.
    unfold Rdiv at 3. rewrite Rinv_0, Rmult_0_r.
    rewrite Rmin_left; lra. }
  assert (H3 : 0 <= third_quadrant demo_car (- PI / 2)).
  { unfold third_quadrant. simpl.
    replace (PI + - PI / 2) with (PI / 2) by field.
    replace (- (- PI / 2) - PI / 2) with 0 by field.
    rewrite cos_0, cos_PI2, std_min_Rmin.
    unfold Rdiv at 1. rewrite Rinv_0, Rmult_0_r.
    apply Rmin_glb; lra. }
  repeat split.
  - unfold perim_entry.
    destruct (Rlt_dec 0 (- PI / 2)) as [Hn | _]; [lra |].
    destruct (Rlt_dec (- PI / 2) (- PI / 2)) as [Hn | _]; [lra |].
    reflexivity.
  - exact H4.
  - exact H3.
  - rewrite H4. lra.
Qed.


(** ** safety_node: the node as a whole *)

Lemma Safety_new_perimeter (lidar0 : lidar_intrinsics)
    (car0 : car_intrinsics) (shared : option LaserScan) (ps : params)
    (s : Safety) :
  Safety_new lidar0 car0 shared ps = Some s -> car_perimeter s = vec_empty.
Proof.
  unfold Safety_new.
  destruct (compute_car_perim _ _) as [v |]; [| discriminate].
  intros [= <-]. reflexivity.
Qed.

Lemma reachable_brake_msg (s : Safety) :
  reachable s -> brake_msg s = initial_brake_msg /\ ttc_threshold s = 1 / 100.
Proof.
  induction 1 as [lidar0 car0 shared ps s Hnew | s e Hreach IH].
  - unfold Safety_new in Hnew.
    destruct (compute_car_perim _ _) as [v |]; [| discriminate].
    injection Hnew as <-. split; reflexivity.
  - destruct e as [x | m]; simpl; exact IH.
Qed.

Lemma reachable_perimeter (s : Safety) :
  reachable s -> car_perimeter s = vec_empty.
Proof.
  induction 1 as [lidar0 car0 shared ps s Hnew | s e Hreach IH].
  - exact (Safety_new_perimeter _ _ _ _ _ Hnew).
  - destruct e as [x | m]; simpl; exact IH.
Qed.

Lemma scan_callback_empty_table (s : Safety) (m : LaserScan) :
  car_perimeter s = vec_empty -> scan_callback s m = [].
Proof.
  intros Hp. unfold scan_callback. rewrite Hp. simpl.
  destruct (ranges m) as [| r rs]; reflexivity.
Qed.

(** C9.  In every state the node can reach (construction, then any sequence
    of odometry and scan callbacks) [car_perimeter.size()] is 0: the
    constructor drops the vector that [compute_car_perim] returns and no
    callback assigns the member.  So a scan with a non-empty [ranges] fails
    the length check, and [scan_callback] publishes nothing for any scan. *)
Theorem car_perimeter_stays_empty (s : Safety) :
  reachable s ->
  vec_size (car_perimeter s) = 0%nat /\
  (forall m : LaserScan, ranges m <> [] ->
     (length (ranges m) =? vec_size (car_perimeter s))%nat = false) /\
  (forall m : LaserScan, scan_callback s m = []).
Proof.
  intros Hreach. pose proof (reachable_perimeter s Hreach) as Hp.
  split; [| split].
  - rewrite Hp. reflexivity.
  - intros m Hne. rewrite Hp. simpl.
    destruct (ranges m) as [| r rs]; [contradiction | reflexivity].
  - intros m. exact (scan_callback_empty_table s m Hp).
Qed.

(** The node built from [narrow_scan], after an odometry sample of 2 m/s,
    stays silent on the braking scenario's scan. *)
Lemma car_perimeter_stays_empty_witness :
  vec_size (car_perimeter (odom_callback narrow_node 2)) = 0%nat /\
  scan_callback (odom_callback narrow_node 2) (scenario_scan (31 / 100)) = [].
Proof.
  assert (Hreach : reachable (odom_callback narrow_node 2)).
  { apply (reach_step narrow_node (Odom 2)).
    apply (reach_new narrow_lidar demo_car (Some narrow_scan) demo_params).
    apply narrow_node_new. }
  destruct (car_perimeter_stays_empty _ Hreach) as [Hsize [_ Hquiet]].
  split; [exact Hsize | apply Hquiet].
Defined.

(** C5.  The constructor of [Safety] does not take the beam count from the
    sample scan's own [angle_min] and [angle_max]: it stores [angle_max] in
    [min_angle] and divides their difference, which is 0, without [ceil].
    On a sample scan from -1 to 1 in steps of 0.5, with no [scan_beams]
    parameter, it ends with [num_scans = 0] where
    [ceil ((angle_max - angle_min) / angle_increment)] is 4. *)
Theorem safety_beam_count_from_angle_max
    (lidar0 : lidar_intrinsics) (car0 : car_intrinsics) :
  exists s : Safety,
    Safety_new lidar0 car0 (Some wide_scan) no_params = Some s /\
    min_angle (lidar s) = angle_max wide_scan /\
    num_scans (lidar s) = 0 /\
    ceil ((angle_max wide_scan - angle_min wide_scan)
          / angle_increment wide_scan) = 4%Z.
Proof.
  set (l := {| num_scans := (1 - 1) / (1 / 2); scan_inc := 1 / 2;
               min_angle := 1; max_angle := 1 |}).
  destruct (compute_car_perim_returns car0 l 0 1) as [v Hv].
  - simpl. field.
  - unfold SIZE_MAX. lia.
  - apply (to_size_t_INR 1). unfold SIZE_MAX. lia.
  - exists {| car_perimeter := vec_empty; lidar := l; car := car0;
              ttc_threshold := 1 / 100; speed := 0;
              brake_msg := initial_brake_msg |}.
    split; [| split; [| split]].
    + unfold Safety_new. simpl.
      destruct car0 as [w wb bl]. simpl. fold l. rewrite Hv. reflexivity.
    + reflexivity.
    + simpl. field.
    + simpl. replace ((1 - -1) / (1 / 2)) with (IZR 4) by (simpl; field).
      apply ceil_IZR.
Qed.

Lemma ttc_odom (s : Safety) (m : LaserScan) (i : nat) (v : R) :
  ttc (odom_callback s v) m i =
  (nth i (ranges m) 0 - vec_get (car_perimeter s) i) / r_hat v m i.
Proof. reflexivity. Qed.

(** C7, as stated, fails on two inputs.  On a beam straight ahead with a
    reading of 0.25 inside the perimeter entry 0.3, the time to collision
    is negative and raising the speed from 1 to 2 brings it up from -0.05
    to -0.025.  On a beam pointing backwards the closing velocity is
    positive for negative speeds, and raising the speed from -2 to -1
    doubles the time to collision of a reading beyond the entry. *)
Lemma ttc_not_always_decreasing :
  ~ ttc_decreases scenario_state (scenario_scan (1 / 4)) 0 1 2 /\
  ~ ttc_decreases scenario_state (rear_scan 1) 0 (-2) (-1).
Proof.
  assert (Hfront : forall v r, r_hat v (scenario_scan r) 0 = v).
  { intros v r. unfold r_hat. simpl.
    replace (0 * 0 + 0) with 0 by lra. rewrite cos_0. lra. }
  assert (Hrear : forall v r, r_hat v (rear_scan r) 0 = - v).
  { intros v r. unfold r_hat. simpl.
    replace (0 * 0 + PI) with PI by lra. rewrite cos_PI. lra. }
  split; intros Hdec; unfold ttc_decreases in Hdec.
  - rewrite !ttc_odom, !Hfront in Hdec. simpl in Hdec.
    unfold vec_get in Hdec. simpl in Hdec.
    assert (H : (1 / 4 - 3 / 10) / 2 < (1 / 4 - 3 / 10) / 1)
      by (apply Hdec; lra).
    lra.
  - rewrite !ttc_odom, !Hrear in Hdec. simpl in Hdec.
    unfold vec_get in Hdec. simpl in Hdec.
    replace (- (-1)) with 1 in Hdec by lra.
    replace (- (-2)) with 2 in Hdec by lra.
    assert (H : (1 - 3 / 10) / 1 < (1 - 3 / 10) / 2)
      by (apply Hdec; lra).
    lra.
Qed.

(** C7, amended.  For a fixed reading, perimeter entry and beam angle, and
    two speeds [v1 < v2] that both give a closing velocity
    [speed * cos angle > 0], the time to collision is
    [(ranges[i] - car_perimeter[i]) / (speed * cos angle)] at each, and it
    is strictly smaller at [v2] than at [v1] exactly when
    [(ranges[i] - car_perimeter[i]) * cos angle > 0]: a reading beyond the
    entry on a beam with positive cosine, or inside it on a beam with
    negative cosine. *)
Theorem ttc_decreasing_in_speed (s : Safety) (m : LaserScan) (i : nat)
    (v1 v2 : R) :
  0 < v1 * cos (angle_min m + INR i * angle_increment m) ->
  0 < v2 * cos (angle_min m + INR i * angle_increment m) ->
  v1 < v2 ->
  ttc (odom_callback s v1) m i =
    (nth i (ranges m) 0 - nth i (elems (car_perimeter s)) 0)
    / (v1 * cos (angle_min m + INR i * angle_increment m)) /\
  ttc (odom_callback s v2) m i =
    (nth i (ranges m) 0 - nth i (elems (car_perimeter s)) 0)
    / (v2 * cos (angle_min m + INR i * angle_increment m)) /\
  (ttc (odom_callback s v2) m i < ttc (odom_callback s v1) m i <->
   0 < (nth i (ranges m) 0 - nth i (elems (car_perimeter s)) 0)
       * cos (angle_min m + INR i * angle_increment m)).
Proof.
  intros H1 H2 Hv.
  rewrite (ttc_formula (odom_callback s v1) m i).
  rewrite (ttc_formula (odom_callback s v2) m i).
  cbn [speed car_perimeter odom_callback].
  set (c := cos (angle_min m + INR i * angle_increment m)) in *.
  set (d := nth i (ranges m) 0 - nth i (elems (car_perimeter s)) 0).
  split; [reflexivity | split; [reflexivity |]].
  set (k := (v2 - v1) / (v1 * c * (v2 * c))).
  assert (Hk : 0 < k).
  { unfold k. apply Rdiv_lt_0_compat; [lra |].
    apply Rmult_lt_0_compat; assumption. }
  assert (Hc : c <> 0) by (intros Hc; rewrite Hc in H1; lra).
  assert (Hv1 : v1 <> 0) by (intros H0; rewrite H0 in H1; lra).
  assert (Hv2 : v2 <> 0) by (intros H0; rewrite H0 in H2; lra).
  assert (Hdiff : d / (v1 * c) - d / (v2 * c) = d * c * k)
    by (unfold k; field; repeat split; assumption).
  split.
  - intros Hlt.
    destruct (Rlt_dec 0 (d * c)) as [Hpos | Hneg]; [exact Hpos |].
    exfalso. assert (d * c * k <= 0) by nra. lra.
  - intros Hpos. assert (0 < d * c * k) by nra. lra.
Qed.

(** The amended law on the no-brake scenario, from 1 m/s to 2 m/s: the
    reading 1 is beyond the entry 0.3 on a beam of cosine 1, and the time to
    collision goes down. *)
Lemma ttc_decreasing_in_speed_witness :
  ttc (odom_callback scenario_state 2) (scenario_scan 1) 0 <
  ttc (odom_callback scenario_state 1) (scenario_scan 1) 0.
Proof.
  assert (Hcos : cos (angle_min (scenario_scan 1)
                      + INR 0 * angle_increment (scenario_scan 1)) = 1).
  { simpl. replace (0 + 0 * 0) with 0 by lra. exact cos_0. }
  apply (proj2 (proj2 (ttc_decreasing_in_speed scenario_state
                         (scenario_scan 1) 0 1 2
                         ltac:(rewrite Hcos; lra)
                         ltac:(rewrite Hcos; lra)
                         ltac:(lra)))).
  rewrite Hcos. simpl. lra.
Defined.

(** A reading that is zero or negative, on a closing beam, always brakes
    when the perimeter entry is not negative and the threshold is
    positive. *)
Lemma nonpositive_reading_brakes (s : Safety) (m : LaserScan) (i : nat) :
  brake_msg s = initial_brake_msg ->
  length (ranges m) = vec_size (car_perimeter s) ->
  (i < length (ranges m))%nat ->
  0 < r_hat (speed s) m i ->
  nth i (ranges m) 0 <= 0 -> 0 <= vec_get (car_perimeter s) i ->
  0 < ttc_threshold s ->
  brake_engaged (scan_callback s m).
Proof.
  intros Hmsg Hlen Hi Hclosing Hr Hp Hthr.
  assert (Hv : violating s m i).
  { split; [exact Hclosing |].
    apply Rle_lt_trans with 0; [| exact Hthr].
    unfold ttc.
    assert (Hinv : 0 < / r_hat (speed s) m i)
      by (apply Rinv_0_lt_compat; exact Hclosing).
    unfold Rdiv. nra. }
  unfold brake_engaged.
  split; apply (in_scan_callback s m _ Hlen); exists i;
    (split; [exact Hi |]);
    rewrite (scan_beam_violating s m i Hv), Hmsg; simpl; auto.
Qed.

(** On the scenario state every reading under 0.32 brakes, whatever its
    sign. *)
Lemma scenario_brakes (r : R) :
  r < 32 / 100 ->
  scan_callback scenario_state (scenario_scan r) =
    [brake_pub true; speed_pub {| steering_angle := 0; drive_speed := 0 |}].
Proof.
  intros Hr. rewrite scenario_callback.
  apply (scan_beam_violating scenario_state (scenario_scan r) 0).
  unfold violating. rewrite scenario_ttc, scenario_r_hat. simpl. lra.
Qed.

End SafetyFacts.

(** ** wall_follow: the constructor and [lidar_cb] *)

Module WallFollowFacts.
Import Cpp CppFacts WallFollowNode WallFollowSpec.

(** What the constructor derives from the sample scan: the beam count with
    [ceil] from the scan's own [angle_min] and [angle_max], the two beam
    indices with [round], and [theta] corrected to the index difference. *)
Lemma WallFollow_new_geometry (L0 : R) (m : LaserScan) (w : WallFollow) :
  WallFollow_new L0 (Some m) = Some w ->
  num_scans (lidar_data w) =
    ceil ((angle_max m - angle_min m) / angle_increment m) /\
  min_angle (lidar_data w) = angle_min m /\
  max_angle (lidar_data w) = angle_max m /\
  b_idx w = round ((PI / 2 - angle_min m) / angle_increment m) /\
  a_idx w = round ((PI / 2 - PI / 4 - angle_min m) / angle_increment m) /\
  theta w = angle_increment m * IZR (a_idx w - b_idx w).
Proof.
  unfold WallFollow_new, num_scans_of, to_int.
  destruct ((INT_MIN <=? ceil _) && (ceil _ <=? INT_MAX))%Z;
    [| discriminate].
  destruct ((INT_MIN <=? round ((PI / 2 - angle_min m) / _))
            && (round _ <=? INT_MAX))%Z; [| discriminate].
  destruct ((INT_MIN <=? round ((PI / 2 - PI / 4 - angle_min m) / _))
            && (round _ <=? INT_MAX))%Z; [| discriminate].
  destruct ((INT_MIN <=? _ - _) && (_ - _ <=? INT_MAX))%Z;
    [| discriminate].
  intros [= <-]. simpl. repeat split.
Qed.

(** Whenever both beam indices are inside [ranges], [lidar_cb] computes
    [alpha] and [dt] from the two readings and the stored [theta], and no
    lookahead projection. *)
Lemma lidar_cb_estimate (w : WallFollow) (m : LaserScan) (a' b' : R) :
  ranges_at m (a_idx w) = Some a' -> ranges_at m (b_idx w) = Some b' ->
  exists e : estimate,
    lidar_cb w m = Some e /\
    a e = a' /\ b e = b' /\
    alpha e = atan ((a' * cos (theta w) - b') / (a' * sin (theta w))) /\
    dt e = b' * cos (alpha e) /\
    dt_1 e = None.
Proof.
  intros Ha Hb. unfold lidar_cb. rewrite Ha, Hb.
  eexists. split; [reflexivity |]. simpl. repeat split.
Qed.

Lemma ring_node_new (L0 a' b' : R) :
  WallFollow_new L0 (Some (ring_scan a' b')) = Some (ring_node L0).
Proof.
  pose proof PI_RGT_0 as Hpi.
  unfold WallFollow_new, num_scans_of. simpl.
  replace ((PI - - PI) / (PI / 4)) with (IZR 8) by (field; lra).
  replace ((PI / 2 - - PI) / (PI / 4)) with (IZR 6) by (field; lra).
  replace ((PI / 2 - PI / 4 - - PI) / (PI / 4)) with (IZR 5)
    by (field; lra).
  rewrite ceil_IZR, !round_IZR. reflexivity.
Qed.

Lemma ring_theta (L0 : R) : theta (ring_node L0) = - (PI / 4).
Proof. simpl. lra. Qed.

(** C6.  [lidar_cb] reads the two beams and computes [alpha] and [dt] with
    the corrected [theta], but no lookahead projection: the line that would
    compute [dt + L * sin alpha] is commented out.  On the node built from a
    [ring_scan] ([a_idx = 5], [b_idx = 6], [theta = - PI/4]) and a scan with
    readings [a'] and [b'] on those beams, the estimate has [alpha] and [dt]
    as the spec gives them and has no value for the lookahead. *)
Theorem lidar_cb_has_no_lookahead (L0 a' b' : R) :
  exists (w : WallFollow) (e : estimate),
    WallFollow_new L0 (Some (ring_scan 1 1)) = Some w /\
    a_idx w = 5%Z /\ b_idx w = 6%Z /\
    theta w = angle_increment (ring_scan 1 1) * IZR (a_idx w - b_idx w) /\
    lidar_cb w (ring_scan a' b') = Some e /\
    a e = a' /\ b e = b' /\
    alpha e = atan ((a' * cos (theta w) - b') / (a' * sin (theta w))) /\
    dt e = b' * cos (alpha e) /\
    dt_1 e = None /\
    dt_1 e <> Some (lookahead w e).
Proof.
  exists (ring_node L0).
  destruct (lidar_cb_estimate (ring_node L0) (ring_scan a' b') a' b')
    as [e [Hcb [Ha [Hb [Halpha [Hdt Hnone]]]]]];
    [reflexivity | reflexivity |].
  exists e. repeat split; try assumption.
  - apply ring_node_new.
  - rewrite Hnone. discriminate.
Qed.

End WallFollowFacts.

(** ** point_dist: the extrema that [scan_cb] publishes *)

Module PointDistFacts.
Import PointDistNode PointDistSpec.

(** One iteration extends both records from the first [i] readings to the
    first [i + 1]. *)
Lemma scan_iter_extends (m : LaserScan) (i : nat) (mx mn : PointDist) :
  farthest_among m i mx -> closest_among m i mn ->
  farthest_among m (S i)
    (fst (scan_iter m i (nth i (ranges m) 0) mx mn)) /\
  closest_among m (S i)
    (snd (scan_iter m i (nth i (ranges m) 0) mx mn)).
Proof.
  intros [k [Hk [Hval [Hang [Hall Hfirst]]]]]
         [k' [Hk' [Hval' [Hang' [Hall' Hfirst']]]]].
  unfold scan_iter. simpl. split.
  - destruct (Rlt_dec (distance mx) (nth i (ranges m) 0)) as [Hlt | Hge].
    + exists i. simpl. repeat split; try lia; try reflexivity.
      * intros j Hj. destruct (Nat.eq_dec j i) as [-> | Hne]; [lra |].
        assert (Hji : (j < i)%nat) by lia.
        specialize (Hall j Hji). lra.
      * intros j Hj. specialize (Hall j Hj). lra.
    + exists k. repeat split; try assumption; try lia.
      intros j Hj. destruct (Nat.eq_dec j i) as [-> | Hne]; [lra |].
      apply Hall. lia.
  - destruct (Rgt_dec (distance mn) (nth i (ranges m) 0)) as [Hgt | Hle].
    + exists i. simpl. repeat split; try lia; try reflexivity.
      * intros j Hj. destruct (Nat.eq_dec j i) as [-> | Hne]; [lra |].
        assert (Hji : (j < i)%nat) by lia.
        specialize (Hall' j Hji). lra.
      * intros j Hj. specialize (Hall' j Hj). lra.
    + exists k'. repeat split; try assumption; try lia.
      intros j Hj. destruct (Nat.eq_dec j i) as [-> | Hne]; [lra |].
      apply Hall'. lia.
Qed.

Lemma skipn_cons {A : Type} (d : A) (l : list A) :
  forall (i : nat) (x : A) (t : list A),
    skipn i l = x :: t ->
    nth i l d = x /\ skipn (S i) l = t /\ (i < length l)%nat.
Proof.
  induction l as [| h l' IH]; intros i x t Hskip.
  - destruct i; discriminate.
  - destruct i as [| i'].
    + simpl in Hskip. injection Hskip as -> ->.
      simpl. repeat split. lia.
    + simpl in Hskip. destruct (IH i' x t Hskip) as [Hn [Hs Hl]].
      repeat split; simpl; [exact Hn | exact Hs | lia].
Qed.

(** The loop invariant: started at index [i] on the readings from [i] on,
    with records for the first [i] readings, the loop ends with records for
    all of them. *)
Lemma scan_loop_extrema (m : LaserScan) (rs : list R) :
  forall (i : nat) (mx mn : PointDist),
    skipn i (ranges m) = rs -> (i <= length (ranges m))%nat ->
    farthest_among m i mx -> closest_among m i mn ->
    farthest_among m (length (ranges m)) (fst (scan_loop m i rs mx mn)) /\
    closest_among m (length (ranges m)) (snd (scan_loop m i rs mx mn)).
Proof.
  induction rs as [| r rs' IH]; intros i mx mn Hskip Hi Hmax Hmin.
  - assert (Hlen : i = length (ranges m)).
    { apply (f_equal (@length R)) in Hskip.
      rewrite length_skipn in Hskip. simpl in Hskip. lia. }
    subst i. simpl. split; assumption.
  - destruct (skipn_cons 0 _ _ _ _ Hskip) as [Hnth [Hrest Hlt]].
    destruct (scan_iter_extends m i mx mn Hmax Hmin) as [Hmax' Hmin'].
    rewrite Hnth in Hmax', Hmin'.
    cbn [scan_loop]. destruct (scan_iter m i r mx mn) as [mx' mn'].
    apply IH; [exact Hrest | lia | exact Hmax' | exact Hmin'].
Qed.

(** C10.  For a scan with at least one reading, [scan_cb] publishes one
    farthest-point record and then one closest-point record.  The distance
    of the first is the maximum of [ranges], the distance of the second the
    minimum, and the angle of each is [angle_min + i * angle_increment] for
    the smallest index [i] that attains the extremum. *)
Theorem scan_cb_extrema (m : LaserScan) :
  ranges m <> [] ->
  exists mx mn : PointDist,
    scan_cb m = Some [max_pub mx; min_pub mn] /\
    farthest_among m (length (ranges m)) mx /\
    closest_among m (length (ranges m)) mn.
Proof.
  intros Hne. unfold scan_cb.
  destruct (ranges m) as [| r0 rest] eqn:Hr; [contradiction |].
  set (p0 := {| distance := r0; angle := angle_min m |}).
  assert (Hmax0 : farthest_among m 1 p0).
  { exists 0%nat. rewrite Hr. simpl. repeat split; try lia; try lra.
    intros j Hj. replace j with 0%nat by lia. simpl. lra. }
  assert (Hmin0 : closest_among m 1 p0).
  { exists 0%nat. rewrite Hr. simpl. repeat split; try lia; try lra.
    intros j Hj. replace j with 0%nat by lia. simpl. lra. }
  assert (Hskip : skipn 1 (ranges m) = rest) by (rewrite Hr; reflexivity).
  assert (Hlen : (1 <= length (ranges m))%nat) by (rewrite Hr; simpl; lia).
  destruct (scan_loop_extrema m rest 1 p0 p0 Hskip Hlen Hmax0 Hmin0)
    as [Hmax Hmin].
  rewrite Hr in Hmax, Hmin.
  destruct (scan_loop m 1 rest p0 p0) as [mx mn].
  exists mx, mn. repeat split; assumption.
Qed.

(** On [five_beams] the records are the 5 at index 1 and the 1 at
    index 2. *)
Lemma scan_cb_extrema_witness :
  exists mx mn : PointDist,
    scan_cb five_beams = Some [max_pub mx; min_pub mn] /\
    farthest_among five_beams 5 mx /\
    closest_among five_beams 5 mn.
Proof.
  apply (scan_cb_extrema five_beams). discriminate.
Defined.

End PointDistFacts.

(** ** Range readings that are not valid measurements *)

Module RangeValidityFacts.
Import Cpp SafetyNode SafetySpec SafetyFacts.
Import WallFollowNode WallFollowSpec WallFollowFacts.

(** C2.  Neither callback filters the readings.  In [scan_callback] a
    reading of 0 or of -1 on a closing beam gives a negative time to
    collision, under the threshold, and the brake messages go out: the
    reading counts as an obstacle inside the body.  In [lidar_cb] a reading
    of -1 on beam [a_idx] is used as it comes: the callback returns its
    estimate, [alpha] and [dt] computed from -1, where the spec has the
    cycle skipped. *)
Theorem invalid_readings_are_used :
  ttc scenario_state (scenario_scan 0) 0 < 0 /\
  scan_callback scenario_state (scenario_scan 0) =
    [brake_pub true; speed_pub {| steering_angle := 0; drive_speed := 0 |}] /\
  scan_callback scenario_state (scenario_scan (-1)) =
    [brake_pub true; speed_pub {| steering_angle := 0; drive_speed := 0 |}] /\
  (forall L0 : R, exists e : estimate,
     WallFollow_new L0 (Some (ring_scan 1 1)) = Some (ring_node L0) /\
     lidar_cb (ring_node L0) (ring_scan (-1) 1) = Some e /\
     a e = -1 /\
     alpha e = atan ((-1 * cos (theta (ring_node L0)) - 1)
                     / (-1 * sin (theta (ring_node L0)))) /\
     dt e = 1 * cos (alpha e)).
Proof.
  split; [| split; [| split]].
  - rewrite scenario_ttc. lra.
  - apply scenario_brakes. lra.
  - apply scenario_brakes. lra.
  - intros L0.
    destruct (lidar_cb_estimate (ring_node L0) (ring_scan (-1) 1) (-1) 1)
      as [e [Hcb [Ha [Hb [Halpha [Hdt _]]]]]];
      [reflexivity | reflexivity |].
    exists e. repeat split; try assumption.
    apply ring_node_new.
Qed.

End RangeValidityFacts.

(** ** Further facts about the library functions *)

Module CppMoreFacts.
Import Cpp CppFacts.

Lemma floor_bounds (r : R) : IZR (floor r) <= r /\ r < IZR (floor r) + 1.
Proof.
  unfold floor. destruct (base_Int_part r) as [Hlo Hhi]. split; lra.
Qed.

Lemma floor_mono (x y : R) : x <= y -> (floor x <= floor y)%Z.
Proof.
  intros Hxy.
  destruct (floor_bounds x) as [Hx _], (floor_bounds y) as [_ Hy].
  assert (H : IZR (floor x) < IZR (floor y + 1)).
  { rewrite plus_IZR. lra. }
  apply lt_IZR in H. lia.
Qed.

Lemma floor_nonneg (r : R) : 0 <= r -> (0 <= floor r)%Z.
Proof.
  intros Hr. rewrite <- (floor_IZR 0). apply floor_mono. exact Hr.
Qed.

(** What a successful conversion to [size_t] says about the real. *)
Lemma to_size_t_spec (r : R) (k : nat) :
  to_size_t r = Some k ->
  -1 < r /\ r < INR k + 1 /\ (0 <= r -> INR k <= r).
Proof.
  unfold to_size_t, trunc.
  destruct (Rle_dec 0 r) as [Hpos | Hneg].
  - destruct (Z.leb_spec 0 (floor r)) as [Hz | Hz]; [| discriminate].
    destruct (floor r <=? SIZE_MAX)%Z; [| discriminate].
    intros [= <-]. rewrite INR_IZR_INZ, Z2Nat.id by exact Hz.
    destruct (floor_bounds r). repeat split; lra.
  - destruct (Z.leb_spec 0 (- floor (- r))) as [Hz | Hz]; [| discriminate].
    destruct (- floor (- r) <=? SIZE_MAX)%Z; [| discriminate].
    intros [= <-].
    assert (Hf : (0 <= floor (- r))%Z) by (apply floor_nonneg; lra).
    assert (H0 : floor (- r) = 0%Z) by lia.
    destruct (floor_bounds (- r)) as [_ Hhi]. rewrite H0 in *.
    simpl. repeat split; lra.
Qed.

(** [round] is within one half of its argument. *)
Lemma round_error (x : R) :
  x - / 2 <= IZR (round x) /\ IZR (round x) <= x + / 2.
Proof.
  unfold round. destruct (Rle_dec 0 x) as [Hpos | Hneg].
  - destruct (floor_bounds (x + / 2)). split; lra.
  - rewrite opp_IZR. destruct (floor_bounds (- x + / 2)). split; lra.
Qed.

Lemma round_mono (x y : R) : x <= y -> (round x <= round y)%Z.
Proof.
  intros Hxy. unfold round.
  destruct (Rle_dec 0 x) as [Hx | Hx], (Rle_dec 0 y) as [Hy | Hy].
  - apply floor_mono. lra.
  - lra.
  - assert ((0 <= floor (- x + / 2))%Z) by (apply floor_nonneg; lra).
    assert ((0 <= floor (y + / 2))%Z) by (apply floor_nonneg; lra).
    lia.
  - assert ((floor (- y + / 2) <= floor (- x + / 2))%Z)
      by (apply floor_mono; lra).
    lia.
Qed.

Lemma vec_slot_reserve (n j : nat) : vec_slot (reserve n vec_empty) j = None.
Proof.
  unfold vec_slot. rewrite reserve_elems. simpl. rewrite Nat.sub_0_r.
  unfold reserve. destruct (n <=? vec_capacity vec_empty)%nat; simpl.
  - destruct j; reflexivity.
  - destruct (nth_error (repeat None (n - vec_capacity vec_empty)) j)
      as [o |] eqn:Hnth; [| reflexivity].
    apply nth_error_In, repeat_spec in Hnth. now subst o.
Qed.

End CppMoreFacts.

(** ** safety_node: further properties of [compute_car_perim] *)

Module PerimeterFacts.
Import Cpp CppFacts CppMoreFacts SafetyNode SafetySpec SafetyFacts SafetyTrace.

(** The loop leaves alone every slot outside the range it walks. *)
Lemma perim_loop_untouched (c : car_intrinsics) (n angle : R) (fuel : nat) :
  forall (i : nat) (v v' : std_vector),
    perim_loop c n angle fuel i v = Some v' ->
    forall j : nat, (j < i)%nat \/ ~ INR j < n ->
      vec_slot v' j = vec_slot v j.
Proof.
  induction fuel as [| fuel IH]; intros i v v'; simpl;
    destruct (Rlt_dec (INR i) n) as [Hlt | Hge];
    try discriminate; try (intros [= <-]; reflexivity).
  destruct (vec_store v i (perim_entry c angle)) as [v1 |] eqn:Hstore;
    [| discriminate].
  intros Hloop j Hj.
  rewrite (IH _ _ _ Hloop j) by (destruct Hj; [left; lia | now right]).
  rewrite (vec_slot_store _ _ _ j _ Hstore).
  destruct (Nat.eqb_spec j i) as [-> | Hne]; [| reflexivity].
  destruct Hj as [Hj | Hj]; [lia | contradiction].
Qed.

(** Started at or below the capacity with a beam count above it, the loop
    reaches the store at the capacity and has no result. *)
Lemma perim_loop_overrun (c : car_intrinsics) (n angle : R) (cap : nat)
    (fuel : nat) :
  forall (i : nat) (v : std_vector),
    elems v = [] -> length (spare v) = cap ->
    (i <= cap)%nat -> (cap - i < fuel)%nat -> INR cap < n ->
    perim_loop c n angle fuel i v = None.
Proof.
  induction fuel as [| fuel IH]; intros i v He Hs Hi Hfuel Hn; [lia |].
  simpl. destruct (Rlt_dec (INR i) n) as [Hlt | Hge].
  - unfold vec_store. rewrite He. simpl. rewrite Nat.sub_0_r.
    destruct (Nat.ltb_spec i (length (spare v))) as [Hin | Hout];
      [| reflexivity].
    apply IH; simpl; try rewrite length_list_set; try lia; auto.
  - exfalso. apply Hge.
    apply Rle_lt_trans with (INR cap); [apply le_INR; exact Hi | exact Hn].
Qed.

(** X1.  Whatever the geometry, a vector that [compute_car_perim] returns
    has no elements: its [size()] is 0 and its capacity is the beam count
    converted to [size_t]. *)
Theorem compute_car_perim_shape (c : car_intrinsics) (l : lidar_intrinsics)
    (v : std_vector) (cap : nat) :
  compute_car_perim c l = Some v ->
  to_size_t (num_scans l) = Some cap ->
  elems v = [] /\ vec_size v = 0%nat /\ vec_capacity v = cap.
Proof.
  intros Hv Hcap.
  pose proof (compute_car_perim_size c l v Hv) as Hsize.
  repeat split.
  - unfold vec_size in Hsize. now apply length_zero_iff_nil.
  - exact Hsize.
  - exact (compute_car_perim_capacity c l v cap Hv Hcap).
Qed.

Lemma narrow_cap : to_size_t (num_scans narrow_lidar) = Some 3%nat.
Proof.
  change (num_scans narrow_lidar) with 3.
  replace 3 with (INR 3) by (simpl; lra).
  apply to_size_t_INR. unfold SIZE_MAX. lia.
Qed.

Lemma narrow_start : to_size_t (min_angle narrow_lidar) = Some 0%nat.
Proof.
  apply to_size_t_small; simpl; pose proof PI6_bounds; lra.
Qed.

(** The shape of the table for [demo_car] and [narrow_lidar]. *)
Lemma compute_car_perim_shape_witness :
  exists v : std_vector,
    compute_car_perim demo_car narrow_lidar = Some v /\
    elems v = [] /\ vec_size v = 0%nat /\ vec_capacity v = 3%nat.
Proof.
  destruct narrow_returns as [v Hv]. exists v.
  split; [exact Hv |].
  exact (compute_car_perim_shape demo_car narrow_lidar v 3 Hv narrow_cap).
Defined.

(** X2.  The storage of the returned vector, slot by slot: a slot from
    [size_t(min_angle)] up to the beam count holds the entry for the angle
    [min_angle], the same value in each; a slot below [size_t(min_angle)] or
    at or beyond the beam count was never written. *)
Theorem compute_car_perim_slots (c : car_intrinsics) (l : lidar_intrinsics)
    (v : std_vector) (i0 : nat) :
  compute_car_perim c l = Some v ->
  to_size_t (min_angle l) = Some i0 ->
  forall j : nat,
    ((i0 <= j)%nat -> INR j < num_scans l ->
     vec_slot v j = Some (perim_entry c (min_angle l))) /\
    ((j < i0)%nat \/ num_scans l <= INR j -> vec_slot v j = None).
Proof.
  intros Hv Hi0 j. split.
  - intros Hj Hn. exact (compute_car_perim_slot c l v i0 j Hv Hi0 Hj Hn).
  - intros Hout. unfold compute_car_perim in Hv. rewrite Hi0 in Hv.
    destruct (to_size_t (num_scans l)) as [cap |]; [| discriminate].
    rewrite (perim_loop_untouched _ _ _ _ _ _ _ Hv j).
    + apply vec_slot_reserve.
    + destruct Hout as [Hlt | Hge]; [now left | right; lra].
Qed.

(** The slots of the table for [demo_car] and [narrow_lidar]: slot 2 holds
    the entry for PI/6 and slot 3 nothing. *)
Lemma compute_car_perim_slots_witness :
  exists v : std_vector,
    compute_car_perim demo_car narrow_lidar = Some v /\
    vec_slot v 2 = Some (perim_entry demo_car (PI / 6)) /\
    vec_slot v 3 = None.
Proof.
  destruct narrow_returns as [v Hv]. exists v.
  split; [exact Hv |]. split.
  - apply (proj1 (compute_car_perim_slots demo_car narrow_lidar v 0 Hv
                    narrow_start 2%nat)).
    + lia.
    + simpl. lra.
  - apply (proj2 (compute_car_perim_slots demo_car narrow_lidar v 0 Hv
                    narrow_start 3%nat)).
    right. simpl. lra.
Defined.

(** X3.  With a fractional beam count the loop runs one index too far.
    When the beam count is above its own truncation, the capacity that
    [reserve] is asked for, and the loop starts at or below that
    truncation, the loop reaches the store at the index equal to the
    capacity, outside the reserved storage, and the function has no
    defined result. *)
Theorem compute_car_perim_overrun (c : car_intrinsics)
    (l : lidar_intrinsics) (cap i0 : nat) :
  to_size_t (num_scans l) = Some cap ->
  to_size_t (min_angle l) = Some i0 ->
  (i0 <= cap)%nat -> INR cap < num_scans l ->
  compute_car_perim c l = None.
Proof.
  intros Hcap Hi0 Hle Hn. unfold compute_car_perim. rewrite Hcap, Hi0.
  apply perim_loop_overrun with (cap := cap);
    [apply reserve_elems | apply reserve_spare | exact Hle | lia | exact Hn].
Qed.

Lemma fractional_cap : to_size_t (num_scans fractional_lidar) = Some 2%nat.
Proof.
  unfold to_size_t, trunc. simpl.
  destruct (Rle_dec 0 (5 / 2)) as [_ | Hn]; [| lra].
  rewrite (floor_unique (5 / 2) 2) by lra. reflexivity.
Qed.

(** With 2.5 beams the loop stores at index 2 of a two-slot reservation. *)
Lemma compute_car_perim_overrun_witness :
  compute_car_perim demo_car fractional_lidar = None.
Proof.
  apply (compute_car_perim_overrun demo_car fractional_lidar 2 0).
  - exact fractional_cap.
  - apply to_size_t_small; simpl; lra.
  - lia.
  - simpl. lra.
Defined.

End PerimeterFacts.

(** ** safety_node: the quadrant formula as geometry *)

Module QuadrantFacts.
Import Cpp CppFacts SafetyNode SafetySpec SafetyFacts.

Lemma perim_entry_first (c : car_intrinsics) (angle : R) :
  0 < angle -> angle < PI / 2 ->
  perim_entry c angle =
    Rmin (width c / 2 / cos angle)
         ((wheelbase c - base_link c) / sin angle).
Proof.
  intros Hlo Hhi. unfold perim_entry.
  destruct (Rlt_dec 0 angle) as [_ | Hn]; [| contradiction].
  destruct (Rlt_dec angle (PI / 2)) as [_ | Hn]; [| contradiction].
  unfold first_quadrant. now rewrite cos_shift, std_min_Rmin.
Qed.

(** X4.  In the first quadrant the entry is the distance at which the ray
    leaves the rectangle with the side wall at [width / 2] and the far wall
    at [wheelbase - base_link]: the point at that distance along the ray is
    inside both walls and on one of them. *)
Theorem first_quadrant_reaches_wall (c : car_intrinsics) (angle : R) :
  0 < width c -> base_link c < wheelbase c ->
  0 < angle -> angle < PI / 2 ->
  0 < perim_entry c angle /\
  perim_entry c angle * cos angle <= width c / 2 /\
  perim_entry c angle * sin angle <= wheelbase c - base_link c /\
  (perim_entry c angle * cos angle = width c / 2 \/
   perim_entry c angle * sin angle = wheelbase c - base_link c).
Proof.
  intros Hw Hf Hlo Hhi. pose proof PI_RGT_0 as Hpi.
  rewrite (perim_entry_first c angle Hlo Hhi).
  assert (Hcos : 0 < cos angle) by (apply cos_gt_0; lra).
  assert (Hsin : 0 < sin angle) by (apply sin_gt_0; lra).
  set (side := width c / 2 / cos angle).
  set (far := (wheelbase c - base_link c) / sin angle).
  assert (Hside : side * cos angle = width c / 2)
    by (unfold side; field; lra).
  assert (Hfar : far * sin angle = wheelbase c - base_link c)
    by (unfold far; field; lra).
  assert (Hsp : 0 < side) by (unfold side; apply Rdiv_lt_0_compat; lra).
  assert (Hfp : 0 < far) by (unfold far; apply Rdiv_lt_0_compat; lra).
  unfold Rmin. destruct (Rle_dec side far) as [Hle | Hgt].
  - repeat split; [exact Hsp | lra | nra | left; exact Hside].
  - repeat split; [exact Hfp | nra | lra | right; exact Hfar].
Qed.

Lemma PI4_bounds : 0 < PI / 4 /\ PI / 4 < PI / 2.
Proof. pose proof PI_RGT_0. split; lra. Qed.

(** On [demo_car] at PI/4, the spec's perimeter scenario. *)
Lemma first_quadrant_reaches_wall_witness :
  0 < perim_entry demo_car (PI / 4) /\
  perim_entry demo_car (PI / 4) * cos (PI / 4) <= width demo_car / 2 /\
  perim_entry demo_car (PI / 4) * sin (PI / 4) <=
    wheelbase demo_car - base_link demo_car /\
  (perim_entry demo_car (PI / 4) * cos (PI / 4) = width demo_car / 2 \/
   perim_entry demo_car (PI / 4) * sin (PI / 4) =
     wheelbase demo_car - base_link demo_car).
Proof.
  apply (first_quadrant_reaches_wall demo_car (PI / 4)).
  - simpl. lra.
  - simpl. lra.
  - exact (proj1 PI4_bounds).
  - exact (proj2 PI4_bounds).
Defined.

(** X5.  The front half of the formula is mirror-symmetric about the angle
    PI/2: the entry for [PI - angle], computed by the second-quadrant
    branch, equals the entry for [angle], computed by the first. *)
Theorem front_half_mirror (c : car_intrinsics) (angle : R) :
  0 < angle -> angle < PI / 2 ->
  perim_entry c (PI - angle) = perim_entry c angle.
Proof.
  intros Hlo Hhi. pose proof PI_RGT_0 as Hpi.
  unfold perim_entry.
  destruct (Rlt_dec 0 (PI - angle)) as [_ | Hn]; [| lra].
  destruct (Rlt_dec (PI - angle) (PI / 2)) as [Hn | _]; [lra |].
  destruct (Rlt_dec 0 angle) as [_ | Hn]; [| contradiction].
  destruct (Rlt_dec angle (PI / 2)) as [_ | Hn]; [| contradiction].
  unfold second_quadrant, first_quadrant.
  replace (PI - (PI - angle)) with angle by ring.
  replace (PI - angle - PI / 2) with (PI / 2 - angle) by field.
  reflexivity.
Qed.

(** The mirror of PI/4 is 3 PI/4. *)
Lemma front_half_mirror_witness :
  perim_entry demo_car (PI - PI / 4) = perim_entry demo_car (PI / 4).
Proof.
  exact (front_half_mirror demo_car (PI / 4)
           (proj1 PI4_bounds) (proj2 PI4_bounds)).
Defined.

(** X6.  The rear half is not mirror-symmetric.  Strictly inside the fourth
    quadrant the entry is [base_link / sin angle], a negative number; the
    entry for the mirrored angle [- PI - angle], computed by the
    third-quadrant branch, is positive. *)
Theorem rear_half_signs (c : car_intrinsics) (angle : R) :
  0 < width c -> 0 < base_link c ->
  - PI / 2 < angle -> angle < 0 ->
  perim_entry c angle = base_link c / sin angle /\
  perim_entry c angle < 0 /\
  0 < perim_entry c (- PI - angle).
Proof.
  intros Hw Hbl Hlo Hhi. pose proof PI_RGT_0 as Hpi.
  assert (Hsin : sin angle < 0) by (apply sin_lt_0_var; lra).
  assert (Hinv : / sin angle < 0) by (apply Rinv_lt_0_compat; exact Hsin).
  assert (Hneg : base_link c / sin angle < 0) by (unfold Rdiv; nra).
  assert (H4 : perim_entry c angle = base_link c / sin angle).
  { unfold perim_entry.
    destruct (Rlt_dec 0 angle) as [Hn | _]; [lra |].
    destruct (Rlt_dec angle (- PI / 2)) as [Hn | _]; [lra |].
    unfold fourth_quadrant. rewrite cos_shift, cos_neg, std_min_Rmin.
    apply Rmin_left.
    assert (Hcos : 0 < cos angle) by (apply cos_gt_0; lra).
    assert (0 < width c / 2 / cos angle)
      by (apply Rdiv_lt_0_compat; lra).
    lra. }
  split; [exact H4 | split; [rewrite H4; exact Hneg |]].
  unfold perim_entry.
  destruct (Rlt_dec 0 (- PI - angle)) as [Hn | _]; [lra |].
  destruct (Rlt_dec (- PI - angle) (- PI / 2)) as [_ | Hn]; [| lra].
  apply third_quadrant_positive; lra.
Qed.

(** On [demo_car] at -PI/4. *)
Lemma rear_half_signs_witness :
  perim_entry demo_car (- (PI / 4)) =
    base_link demo_car / sin (- (PI / 4)) /\
  perim_entry demo_car (- (PI / 4)) < 0 /\
  0 < perim_entry demo_car (- PI - - (PI / 4)).
Proof.
  pose proof PI4_bounds as [Hlo Hhi].
  apply (rear_half_signs demo_car (- (PI / 4))); simpl; lra.
Defined.

End QuadrantFacts.

(** ** safety_node: further properties of the callbacks *)

Module CallbackFacts.
Import Cpp CppFacts SafetyNode SafetySpec SafetyFacts SafetyTrace.
Import SafetyBeams.

Lemma flat_map_nil {A B : Type} (f : A -> list B) (l : list A) :
  (forall x, In x l -> f x = []) -> flat_map f l = [].
Proof.
  induction l as [| h t IH]; intros Hall; simpl; [reflexivity |].
  rewrite (Hall h) by now left.
  apply IH. intros x Hx. apply Hall. now right.
Qed.

Lemma scan_beam_violates (s : Safety) (m : LaserScan) (i : nat) :
  scan_beam s m i =
    if violates s m i then
      [brake_pub (brake (brake_msg s)); speed_pub (speed_msg (brake_msg s))]
    else [].
Proof.
  unfold scan_beam, violates.
  destruct (Rle_dec (r_hat (speed s) m i) 0); [reflexivity |].
  destruct (Rlt_dec (ttc s m i) (ttc_threshold s)); reflexivity.
Qed.

Lemma flat_map_scan_beam (s : Safety) (m : LaserScan) (l : list nat) :
  flat_map (scan_beam s m) l =
  flat_map (fun _ => [brake_pub (brake (brake_msg s));
                      speed_pub (speed_msg (brake_msg s))])
           (filter (violates s m) l).
Proof.
  induction l as [| i t IH]; simpl; [reflexivity |].
  rewrite scan_beam_violates, IH.
  destruct (violates s m i); reflexivity.
Qed.

(** X7.  With a cached speed of 0, the value the constructor sets and that
    stays until an odometry sample arrives, [scan_callback] publishes
    nothing, whatever the scan and the perimeter table. *)
Theorem standstill_is_silent (s : Safety) (m : LaserScan) :
  speed s = 0 -> scan_callback s m = [].
Proof.
  intros Hspeed. unfold scan_callback.
  destruct (length (ranges m) =? vec_size (car_perimeter s))%nat;
    [| reflexivity].
  apply flat_map_nil. intros i _. unfold scan_beam.
  destruct (Rle_dec (r_hat (speed s) m i) 0) as [_ | Hgt];
    [reflexivity |].
  exfalso. apply Hgt. unfold r_hat. rewrite Hspeed. lra.
Qed.

(** The scenario state at standstill, on a scan that brakes at 2 m/s. *)
Lemma standstill_is_silent_witness :
  scan_callback (odom_callback scenario_state 0)
    (scenario_scan (31 / 100)) = [].
Proof.
  exact (standstill_is_silent (odom_callback scenario_state 0)
           (scenario_scan (31 / 100)) eq_refl).
Defined.

Lemma violates_under_threshold (s : Safety) (m : LaserScan) (i : nat) :
  violates s m i = under_threshold s m i.
Proof.
  unfold violates, under_threshold.
  rewrite ttc_formula, r_hat_formula.
  set (cv := speed s * cos (angle_min m + INR i * angle_increment m)).
  destruct (Rle_dec cv 0) as [Hle | Hgt], (Rlt_dec 0 cv) as [Hlt | Hge];
    try reflexivity; lra.
Qed.

(** X8.  [scan_callback] does not stop at the first beam under the
    threshold: for a scan as long as the table it publishes the pair of
    brake messages once for every beam [i] with
    [speed * cos (angle_min + i * angle_increment) > 0] and
    [(ranges[i] - car_perimeter[i]) / (speed * cos (...)) < ttc_threshold],
    in beam order, so the number of messages is twice the number of those
    beams. *)
Theorem one_pair_per_beam (s : Safety) (m : LaserScan) :
  length (ranges m) = vec_size (car_perimeter s) ->
  scan_callback s m =
    flat_map (fun _ => [brake_pub (brake (brake_msg s));
                        speed_pub (speed_msg (brake_msg s))])
             (filter (under_threshold s m) (seq 0 (length (ranges m)))) /\
  length (scan_callback s m) =
    (2 * length (filter (under_threshold s m)
                   (seq 0 (length (ranges m)))))%nat.
Proof.
  intros Hlen. unfold scan_callback.
  rewrite (proj2 (Nat.eqb_eq _ _) Hlen), flat_map_scan_beam.
  rewrite (filter_ext _ _ (violates_under_threshold s m)).
  split; [reflexivity |].
  induction (filter (under_threshold s m) (seq 0 (length (ranges m))))
    as [| i t IH]; simpl; [reflexivity | rewrite IH; lia].
Qed.

Lemma half_turn_beams :
  under_threshold three_state half_turn_scan 0 = true /\
  under_threshold three_state half_turn_scan 1 = false /\
  under_threshold three_state half_turn_scan 2 = true.
Proof.
  unfold under_threshold. simpl.
  replace (0 + 0 * PI) with 0 by lra.
  replace (0 + 1 * PI) with PI by lra.
  replace (0 + (1 + 1) * PI) with (2 * PI) by lra.
  rewrite cos_0, cos_PI, cos_2PI.
  repeat split.
  - destruct (Rlt_dec 0 (2 * 1)) as [_ | Hn]; [| lra].
    destruct (Rlt_dec ((31 / 100 - 3 / 10) / (2 * 1)) (1 / 100))
      as [_ | Hn]; [reflexivity | lra].
  - destruct (Rlt_dec 0 (2 * -1)) as [Hn | _]; [lra | reflexivity].
  - destruct (Rlt_dec 0 (2 * 1)) as [_ | Hn]; [| lra].
    destruct (Rlt_dec ((31 / 100 - 3 / 10) / (2 * 1)) (1 / 100))
      as [_ | Hn]; [reflexivity | lra].
Qed.

(** Three beams reading 0.31 at the angles 0, PI and 2 PI, at speed 2: the
    first and the third are under the threshold, the second recedes, and
    the callback publishes two pairs. *)
Lemma one_pair_per_beam_witness :
  scan_callback three_state half_turn_scan =
    [brake_pub true; speed_pub {| steering_angle := 0; drive_speed := 0 |};
     brake_pub true; speed_pub {| steering_angle := 0; drive_speed := 0 |}].
Proof.
  rewrite (proj1 (one_pair_per_beam three_state half_turn_scan eq_refl)).
  destruct half_turn_beams as [H0 [H1 H2]].
  cbn [ranges half_turn_scan length seq filter].
  rewrite H0, H1, H2. reflexivity.
Defined.

(** X9.  A scan that brakes still brakes when readings come closer: if
    [scan_callback] engages the brake on [m], it engages it on every scan
    of the same beams with no reading farther than in [m]. *)
Theorem closer_readings_keep_brake (s : Safety) (m m' : LaserScan) :
  brake_msg s = initial_brake_msg ->
  length (ranges m) = vec_size (car_perimeter s) ->
  no_farther m' m ->
  brake_engaged (scan_callback s m) ->
  brake_engaged (scan_callback s m').
Proof.
  intros Hmsg Hlen [Hmin [Hinc [Hlen' Hle]]] [Hb _].
  apply (in_scan_callback s m _ Hlen) in Hb.
  destruct Hb as [i [Hi Hin]].
  destruct (violating_dec s m i) as [[Hpos Httc] | Hv];
    [| rewrite (scan_beam_quiet s m i Hv) in Hin; destruct Hin].
  assert (Hrhat : r_hat (speed s) m' i = r_hat (speed s) m i)
    by (unfold r_hat; now rewrite Hmin, Hinc).
  assert (Hv' : violating s m' i).
  { split; [rewrite Hrhat; exact Hpos |].
    apply Rle_lt_trans with (ttc s m i); [| exact Httc].
    unfold ttc. rewrite Hrhat.
    assert (Hinv : 0 < / r_hat (speed s) m i)
      by (apply Rinv_0_lt_compat; exact Hpos).
    specialize (Hle i). unfold Rdiv. nra. }
  assert (Hlen2 : length (ranges m') = vec_size (car_perimeter s))
    by congruence.
  unfold brake_engaged.
  split; apply (in_scan_callback s m' _ Hlen2); exists i;
    (split; [lia |]);
    rewrite (scan_beam_violating s m' i Hv'), Hmsg; simpl; auto.
Qed.

Lemma scenario_no_farther (r' r : R) :
  r' <= r -> no_farther (scenario_scan r') (scenario_scan r).
Proof.
  intros Hr. repeat split.
  intros [| [| i]]; simpl; lra.
Qed.

Lemma scenario_engaged :
  brake_engaged (scan_callback scenario_state (scenario_scan (31 / 100))).
Proof.
  rewrite scenario_brakes by lra. split; simpl; auto.
Qed.

(** From the braking scenario's reading 0.31 down to 0.305. *)
Lemma closer_readings_keep_brake_witness :
  brake_engaged (scan_callback scenario_state (scenario_scan (305 / 1000))).
Proof.
  apply (closer_readings_keep_brake scenario_state
           (scenario_scan (31 / 100)) (scenario_scan (305 / 1000))).
  - reflexivity.
  - reflexivity.
  - apply scenario_no_farther. lra.
  - exact scenario_engaged.
Defined.

Lemma run_state (s : Safety) (es : list event) :
  car_perimeter (fst (run s es)) = car_perimeter s /\
  lidar (fst (run s es)) = lidar s /\
  car (fst (run s es)) = car s /\
  ttc_threshold (fst (run s es)) = ttc_threshold s /\
  brake_msg (fst (run s es)) = brake_msg s /\
  speed (fst (run s es)) = last_odom (speed s) es.
Proof.
  revert s; induction es as [| e es' IH]; intros s; simpl.
  - repeat split.
  - destruct e as [x | m]; simpl.
    + specialize (IH (odom_callback s x)).
      destruct (run (odom_callback s x) es') as [s2 out2]. exact IH.
    + specialize (IH s).
      destruct (run s es') as [s2 out2]. exact IH.
Qed.

Lemma run_silent (s : Safety) (es : list event) :
  car_perimeter s = vec_empty -> snd (run s es) = [].
Proof.
  revert s; induction es as [| e es' IH]; intros s Hp; simpl;
    [reflexivity |].
  destruct e as [x | m]; simpl.
  - specialize (IH (odom_callback s x) Hp).
    destruct (run (odom_callback s x) es') as [s2 out2]. exact IH.
  - specialize (IH s Hp). rewrite (scan_callback_empty_table s m Hp).
    destruct (run s es') as [s2 out2]. exact IH.
Qed.

(** X10.  The node over its lifetime.  From the state the constructor
    builds on a sample scan, after any sequence of odometry and scan
    messages: the cached speed is the last odometry sample (0 before the
    first), the stored geometry has [min_angle] and [max_angle] both equal
    to the sample's [angle_max] and the beam count equal to the
    [scan_beams] parameter (0 without it), the threshold is 0.01, the brake
    message is unchanged, and nothing was published. *)
Theorem node_lifetime (lidar0 : lidar_intrinsics) (car0 : car_intrinsics)
    (sample : LaserScan) (ps : params) (s0 : Safety) (es : list event) :
  Safety_new lidar0 car0 (Some sample) ps = Some s0 ->
  speed (fst (run s0 es)) = last_odom 0 es /\
  min_angle (lidar (fst (run s0 es))) = angle_max sample /\
  max_angle (lidar (fst (run s0 es))) = angle_max sample /\
  scan_inc (lidar (fst (run s0 es))) = angle_increment sample /\
  num_scans (lidar (fst (run s0 es))) = getParam (p_scan_beams ps) 0 /\
  ttc_threshold (fst (run s0 es)) = 1 / 100 /\
  brake_msg (fst (run s0 es)) = initial_brake_msg /\
  snd (run s0 es) = [].
Proof.
  intros Hnew.
  destruct (run_state s0 es) as [Hp [Hl [Hc [Ht [Hb Hs]]]]].
  rewrite Hl, Ht, Hb, Hs.
  pose proof (run_silent s0 es (Safety_new_perimeter _ _ _ _ _ Hnew))
    as Hout.
  unfold Safety_new in Hnew.
  destruct (compute_car_perim _ _) as [v |]; [| discriminate].
  injection Hnew as <-. simpl.
  repeat split; try exact Hout.
  destruct (p_scan_beams ps) as [x |]; simpl; [reflexivity |].
  unfold Rdiv. ring.
Qed.

(** The node built from [narrow_scan]: two odometry samples around a
    scan. *)
Lemma node_lifetime_witness :
  speed (fst (run narrow_node
                [Odom 1; Scan (scenario_scan (31 / 100)); Odom 2])) =
    last_odom 0 [Odom 1; Scan (scenario_scan (31 / 100)); Odom 2] /\
  snd (run narrow_node
         [Odom 1; Scan (scenario_scan (31 / 100)); Odom 2]) = [].
Proof.
  destruct (node_lifetime narrow_lidar demo_car narrow_scan demo_params
              narrow_node
              [Odom 1; Scan (scenario_scan (31 / 100)); Odom 2]
              (narrow_node_new narrow_lidar demo_car))
    as [Hs [_ [_ [_ [_ [_ [_ Hout]]]]]]].
  split; [exact Hs | exact Hout].
Defined.

(** X11.  Without a [scan_beams] parameter the constructor's call of
    [compute_car_perim] reserves nothing and stores nothing.  On a sample
    scan with a non-zero increment the beam count it computes is 0, so for
    every [angle_max] that converts to [size_t] the loop body never runs,
    the vector returned has capacity 0, and the constructor completes. *)
Theorem constructor_without_beam_count (lidar0 : lidar_intrinsics)
    (car0 : car_intrinsics) (sample : LaserScan) (ps : params)
    (i0 : nat) :
  angle_increment sample <> 0 ->
  p_scan_beams ps = None ->
  to_size_t (angle_max sample) = Some i0 ->
  exists s : Safety,
    Safety_new lidar0 car0 (Some sample) ps = Some s /\
    num_scans (lidar s) = 0 /\
    compute_car_perim (car s) (lidar s) = Some vec_empty.
Proof.
  intros Hinc Hnone Hi0.
  assert (Hrun : forall (c : car_intrinsics) (l : lidar_intrinsics),
            num_scans l = 0 -> min_angle l = angle_max sample ->
            compute_car_perim c l = Some vec_empty).
  { intros c l Hn Hmin. unfold compute_car_perim.
    rewrite Hn, Hmin, Hi0.
    replace 0 with (INR 0) at 1 by reflexivity.
    rewrite (to_size_t_INR 0) by (unfold SIZE_MAX; lia).
    cbn [perim_loop].
    destruct (Rlt_dec (INR i0) 0) as [Hlt | _]; [| reflexivity].
    pose proof (pos_INR i0). lra. }
  unfold Safety_new. rewrite Hnone.
  match goal with
  | |- context [compute_car_perim ?c ?l] =>
      assert (Hv : compute_car_perim c l = Some vec_empty)
        by (apply Hrun; simpl; [unfold Rdiv; ring | reflexivity]);
      rewrite Hv
  end.
  eexists. split; [reflexivity |]. simpl.
  split; [unfold Rdiv; ring |].
  apply Hrun; simpl; [unfold Rdiv; ring | reflexivity].
Qed.

(** On [wide_scan], whose increment is 0.5 and whose [angle_max] is 1. *)
Lemma constructor_without_beam_count_witness :
  exists s : Safety,
    Safety_new narrow_lidar demo_car (Some wide_scan) no_params = Some s /\
    num_scans (lidar s) = 0 /\
    compute_car_perim (car s) (lidar s) = Some vec_empty.
Proof.
  apply (constructor_without_beam_count narrow_lidar demo_car wide_scan
           no_params 1).
  - simpl. lra.
  - reflexivity.
  - apply (to_size_t_INR 1). unfold SIZE_MAX. lia.
Defined.

End CallbackFacts.

(** ** wall_follow: further properties *)

Module EstimatorFacts.
Import Cpp CppFacts CppMoreFacts WallFollowNode WallFollowSpec.
Import WallFollowFacts.

(** X12.  The two-beam estimate is exact.  For a wall at perpendicular
    distance [D], seen by a vehicle whose heading is off the wall by
    [alpha0], the two beams read [D / cos alpha0] and
    [D / cos (alpha0 + theta)]; from these readings [lidar_cb] computes
    [alpha = alpha0] and [dt = D]. *)
Theorem two_beam_estimate_exact (w : WallFollow) (m : LaserScan)
    (D alpha0 : R) :
  ranges_at m (a_idx w) = Some (D / cos (alpha0 + theta w)) ->
  ranges_at m (b_idx w) = Some (D / cos alpha0) ->
  D <> 0 -> - (PI / 2) < alpha0 -> alpha0 < PI / 2 ->
  sin (theta w) <> 0 -> cos (alpha0 + theta w) <> 0 ->
  exists e : estimate,
    lidar_cb w m = Some e /\ alpha e = alpha0 /\ dt e = D.
Proof.
  intros Ha Hb HD Hlo Hhi Hsin Hcos.
  destruct (lidar_cb_estimate w m _ _ Ha Hb)
    as [e [Hcb [_ [_ [Halpha [Hdt _]]]]]].
  assert (Hc0 : 0 < cos alpha0) by (apply cos_gt_0; lra).
  assert (Hq : (D / cos (alpha0 + theta w) * cos (theta w) - D / cos alpha0)
               / (D / cos (alpha0 + theta w) * sin (theta w))
               = tan alpha0).
  { unfold tan. pose proof (cos_plus alpha0 (theta w)) as Hplus.
    set (C := cos (alpha0 + theta w)) in *.
    apply Rmult_eq_reg_r with (cos alpha0 * (D / C * sin (theta w))).
    - transitivity
        ((D / C * cos (theta w) - D / cos alpha0) * cos alpha0);
        [field; repeat split; lra |].
      transitivity (sin alpha0 * (D / C * sin (theta w)));
        [| field; lra].
      transitivity (D / C * (cos alpha0 * cos (theta w) - C));
        [field; split; lra |].
      assert (Hdiff : cos alpha0 * cos (theta w) - C
                      = sin alpha0 * sin (theta w))
        by (rewrite Hplus; ring).
      rewrite Hdiff. field. exact Hcos.
    - apply Rmult_integral_contrapositive_currified; [lra |].
      apply Rmult_integral_contrapositive_currified; [| exact Hsin].
      unfold Rdiv. apply Rmult_integral_contrapositive_currified;
        [exact HD | apply Rinv_neq_0_compat; exact Hcos]. }
  assert (Hal : alpha e = alpha0).
  { rewrite Halpha, Hq. apply atan_tan. split; assumption. }
  exists e. split; [exact Hcb |]. split; [exact Hal |].
  rewrite Hdt, Hal. field. lra.
Qed.

Lemma ring_theta_trig (L0 : R) :
  sin (theta (ring_node L0)) <> 0 /\ 0 < cos (0 + theta (ring_node L0)).
Proof.
  pose proof PI_RGT_0 as Hpi.
  assert (Ht : theta (ring_node L0) = - (PI / 4)) by (simpl; lra).
  rewrite Ht. split.
  - rewrite sin_neg.
    assert (0 < sin (PI / 4)) by (apply sin_gt_0; lra). lra.
  - rewrite Rplus_0_l, cos_neg. apply cos_gt_0; lra.
Qed.

(** The vehicle parallel to a wall one metre away, on the node built from
    a [ring_scan]. *)
Lemma two_beam_estimate_exact_witness :
  exists e : estimate,
    lidar_cb (ring_node 0)
      (ring_scan (1 / cos (0 + theta (ring_node 0))) (1 / cos 0)) = Some e /\
    alpha e = 0 /\ dt e = 1.
Proof.
  pose proof PI_RGT_0 as Hpi.
  destruct (ring_theta_trig 0) as [Hsin Hcos].
  apply (two_beam_estimate_exact (ring_node 0)
           (ring_scan (1 / cos (0 + theta (ring_node 0))) (1 / cos 0))
           1 0).
  - reflexivity.
  - reflexivity.
  - lra.
  - lra.
  - lra.
  - exact Hsin.
  - lra.
Defined.

(** X13.  The corrected [theta] that the constructor stores.  For a
    positive angular increment the forward beam's index is never above the
    orthogonal beam's, so [theta] is never positive, and it lies within one
    increment of - PI/4. *)
Theorem corrected_theta_bounds (L0 : R) (m : LaserScan) (w : WallFollow) :
  WallFollow_new L0 (Some m) = Some w ->
  0 < angle_increment m ->
  (a_idx w <= b_idx w)%Z /\
  theta w <= 0 /\
  - (PI / 4) - angle_increment m <= theta w /\
  theta w <= - (PI / 4) + angle_increment m.
Proof.
  intros Hnew Hinc. pose proof PI_RGT_0 as Hpi.
  destruct (WallFollow_new_geometry L0 m w Hnew)
    as [_ [_ [_ [Hb [Ha Ht]]]]].
  set (inc := angle_increment m) in *.
  set (x := (PI / 2 - angle_min m) / inc) in *.
  set (y := (PI / 2 - PI / 4 - angle_min m) / inc) in *.
  assert (Hxy : inc * (x - y) = PI / 4) by (unfold x, y; field; lra).
  assert (Hle : y <= x) by nra.
  assert (Hab : (a_idx w <= b_idx w)%Z)
    by (rewrite Ha, Hb; apply round_mono; exact Hle).
  destruct (round_error x) as [Hx1 Hx2], (round_error y) as [Hy1 Hy2].
  rewrite <- Hb in Hx1, Hx2. rewrite <- Ha in Hy1, Hy2.
  rewrite Ht, minus_IZR.
  assert (Hd : IZR (a_idx w) - IZR (b_idx w) <= 0).
  { apply IZR_le in Hab. lra. }
  repeat split; [exact Hab | nra | nra | nra].
Qed.

(** On the node built from a [ring_scan], whose increment is PI/4. *)
Lemma corrected_theta_bounds_witness :
  (a_idx (ring_node 0) <= b_idx (ring_node 0))%Z /\
  theta (ring_node 0) <= 0 /\
  - (PI / 4) - PI / 4 <= theta (ring_node 0) /\
  theta (ring_node 0) <= - (PI / 4) + PI / 4.
Proof.
  apply (corrected_theta_bounds 0 (ring_scan 1 1) (ring_node 0)).
  - apply ring_node_new.
  - simpl. pose proof PI_RGT_0. lra.
Defined.

End EstimatorFacts.

(** ** point_dist: further properties *)

Module ExtremaFacts.
Import PointDistNode PointDistSpec PointDistFacts PointDistStream.

(** Readings that neither exceed the farthest record nor undercut the
    closest leave both records as they are. *)
Lemma scan_loop_inside (m : LaserScan) (rs : list R) :
  forall (i : nat) (mx mn : PointDist),
    (forall r, In r rs -> distance mn <= r /\ r <= distance mx) ->
    scan_loop m i rs mx mn = (mx, mn).
Proof.
  induction rs as [| r rs' IH]; intros i mx mn Hall; [reflexivity |].
  cbn [scan_loop]. unfold scan_iter.
  destruct (Hall r (or_introl eq_refl)) as [Hlo Hhi].
  destruct (Rlt_dec (distance mx) r) as [Hlt | _]; [lra |].
  destruct (Rgt_dec (distance mn) r) as [Hgt | _]; [lra |].
  apply IH. intros r' Hr'. apply Hall. now right.
Qed.

Lemma scan_loop_app (m : LaserScan) (rs : list R) (r : R) :
  forall (i : nat) (mx mn : PointDist),
    scan_loop m i (rs ++ [r]) mx mn =
    scan_iter m (i + length rs) r
      (fst (scan_loop m i rs mx mn)) (snd (scan_loop m i rs mx mn)).
Proof.
  induction rs as [| r1 rs' IH]; intros i mx mn.
  - cbn [app scan_loop length fst snd]. rewrite Nat.add_0_r.
    destruct (scan_iter m i r mx mn) as [mx' mn']. reflexivity.
  - cbn [app scan_loop length].
    destruct (scan_iter m i r1 mx mn) as [mx' mn'].
    rewrite IH. f_equal. lia.
Qed.

Lemma scan_loop_same_angles (m m' : LaserScan) (rs : list R) :
  angle_min m' = angle_min m -> angle_increment m' = angle_increment m ->
  forall (i : nat) (mx mn : PointDist),
    scan_loop m' i rs mx mn = scan_loop m i rs mx mn.
Proof.
  intros Hmin Hinc. induction rs as [| r rs' IH]; intros i mx mn;
    [reflexivity |].
  cbn [scan_loop]. unfold scan_iter. rewrite Hmin, Hinc. apply IH.
Qed.

(** X15.  A scan whose readings are all equal gives two identical records:
    the common reading at the first beam's angle [angle_min].  Ties never
    move a record off the first index. *)
Theorem constant_scan_records (m : LaserScan) (r0 : R) (rest : list R) :
  ranges m = r0 :: rest ->
  (forall r, In r rest -> r = r0) ->
  scan_cb m =
    Some [max_pub {| distance := r0; angle := angle_min m |};
          min_pub {| distance := r0; angle := angle_min m |}].
Proof.
  intros Hr Hall. unfold scan_cb. rewrite Hr.
  rewrite scan_loop_inside; [reflexivity |].
  intros r Hin. rewrite (Hall r Hin). simpl. lra.
Qed.

(** Three beams reading 2. *)
Lemma constant_scan_records_witness :
  scan_cb {| angle_min := -1; angle_max := 1; angle_increment := 1;
             ranges := [2; 2; 2] |} =
    Some [max_pub {| distance := 2; angle := -1 |};
          min_pub {| distance := 2; angle := -1 |}].
Proof.
  apply (constant_scan_records
           {| angle_min := -1; angle_max := 1; angle_increment := 1;
              ranges := [2; 2; 2] |} 2 [2; 2]).
  - reflexivity.
  - intros r [<- | [<- | []]]; reflexivity.
Defined.

(** X16.  The records of a scan with one more reading at its end are the
    records of the scan put through one more iteration of the loop, at the
    new reading's index: [scan_cb] can be computed reading by reading.  In
    particular a new reading between the closest and the farthest distance
    changes neither record. *)
Theorem append_reading_records (m : LaserScan) (r : R)
    (mx mn : PointDist) :
  scan_cb m = Some [max_pub mx; min_pub mn] ->
  scan_cb (append_reading m r) =
    Some [max_pub (fst (scan_iter m (length (ranges m)) r mx mn));
          min_pub (snd (scan_iter m (length (ranges m)) r mx mn))] /\
  (distance mn <= r -> r <= distance mx ->
   scan_cb (append_reading m r) = Some [max_pub mx; min_pub mn]).
Proof.
  intros Hcb.
  assert (Hmain : scan_cb (append_reading m r) =
            Some [max_pub (fst (scan_iter m (length (ranges m)) r mx mn));
                  min_pub (snd (scan_iter m (length (ranges m)) r mx mn))]).
  { unfold scan_cb in *.
    change (ranges (append_reading m r)) with (ranges m ++ [r]).
    change (angle_min (append_reading m r)) with (angle_min m).
    destruct (ranges m) as [| r0 rest]; [discriminate |].
    cbn [app length].
    rewrite (scan_loop_same_angles m (append_reading m r)) by reflexivity.
    rewrite scan_loop_app.
    destruct (scan_loop m 1 rest _ _) as [mx0 mn0].
    injection Hcb as <- <-. cbn [fst snd].
    change (1 + length rest)%nat with (S (length rest)).
    destruct (scan_iter m (S (length rest)) r mx0 mn0) as [q1 q2].
    reflexivity. }
  split; [exact Hmain |].
  intros Hlo Hhi. rewrite Hmain. unfold scan_iter. cbn [fst snd].
  destruct (Rlt_dec (distance mx) r) as [Hlt | _]; [lra |].
  destruct (Rgt_dec (distance mn) r) as [Hgt | _]; [lra |].
  reflexivity.
Qed.

Lemma scan_cb_returns (m : LaserScan) :
  ranges m <> [] ->
  exists mx mn : PointDist, scan_cb m = Some [max_pub mx; min_pub mn].
Proof.
  intros Hne. unfold scan_cb.
  destruct (ranges m) as [| r0 rest]; [contradiction |].
  destruct (scan_loop m 1 rest _ _) as [mx mn]. now exists mx, mn.
Qed.

(** [five_beams] with a sixth reading. *)
Lemma append_reading_records_witness :
  exists mx mn : PointDist,
    scan_cb five_beams = Some [max_pub mx; min_pub mn] /\
    scan_cb (append_reading five_beams 3) =
      Some [max_pub (fst (scan_iter five_beams 5 3 mx mn));
            min_pub (snd (scan_iter five_beams 5 3 mx mn))].
Proof.
  destruct (scan_cb_returns five_beams ltac:(discriminate))
    as [mx [mn Hcb]].
  exists mx, mn. split; [exact Hcb |].
  exact (proj1 (append_reading_records five_beams 3 mx mn Hcb)).
Defined.

End ExtremaFacts.
